(** * school_reward_system: rate limiter and task handlers

    A shallow embedding of [app/cache.py] ([rate_limit]) and of
    [app/celery.py] (the Celery fallback, [init_celery] and the three task
    handlers), with the properties of the specification stated over it.

    Conventions.
    - Timestamps ([time.time()]) and the window length [per] are exact
      numbers of clock ticks, [Z].  The only arithmetic the rate limiter
      does on them is [current_time - t < per]; for two timestamps within
      a factor of two of each other the binary64 subtraction is exact, and
      timestamps of one binade are whole multiples of one unit, so the
      comparison is the one modelled here.
    - [current_app._rate_limit_store] is a [gmap string (list Z)].
    - Python exceptions are explicit: a computation yields [Returned] or
      [Raised]. *)

From Stdlib Require Import ZArith Lia.
From stdpp Require Import gmap strings list fin_maps sorting.

Local Open Scope Z_scope.

(** ** app/cache.py : rate_limit *)

Module RateLimit.

(** What [wrapped] can raise: [abort(429)] raises werkzeug's HTTP
    exception for the status; a subscript on a missing key raises
    [KeyError]. *)
Inductive exn : Type :=
  | HTTPException (code : Z)
  | KeyError (key : string).

Inductive outcome (R : Type) : Type :=
  | Returned (r : R)
  | Raised (e : exn).
Arguments Returned {R} r.
Arguments Raised {R} e.

(** The part of [flask.request] the limiter reads. *)
Record request : Type := { remote_addr : string }.

(** [if current_time - t < per] of the list comprehension. *)
Definition keep (per current_time t : Z) : Prop := current_time - t < per.

#[global] Instance keep_dec per current_time t : Decision (keep per current_time t).
Proof. unfold keep. apply _. Defined.

(** [key = request.remote_addr], then [f"{key}:{scope_func()}"] when a
    scope function is given. *)
Definition request_key (scope_func : option (request → string)) (req : request) : string :=
  let key := remote_addr req in
  match scope_func with
  | Some sf => key +:+ ":" +:+ sf req
  | None => key
  end.

(** Lines 58-64: "Clean up old entries". *)
Definition clean_up (per current_time : Z) (key : string)
    (store : gmap string (list Z)) : gmap string (list Z) :=
  match store !! key with
  | Some w => <[key := filter (keep per current_time) w]> store
  | None => <[key := []]> store
  end.

(** Lines 66-74 on the cleaned store: the limit check, [abort(429)], the
    append of the current request and the call of the view. *)
Definition check_and_append {A R : Type} (limit current_time : Z) (key : string)
    (f : A → R) (args : A) (store : gmap string (list Z))
    : outcome R * gmap string (list Z) :=
  match store !! key with
  | None => (Raised (KeyError key), store)
  | Some w =>
      if bool_decide (Z.of_nat (length w) >= limit)%Z
      then (Raised (HTTPException 429), store)
      else (Returned (f args), <[key := w ++ [current_time]]> store)
  end.

(** [wrapped], the function [rate_limit(limit, per, scope_func)(f)]
    returns.  [req] is the current request, [current_time] the value
    [time.time()] gave, [store] the store when the lock is taken.  The view
    [f] runs after the lock is released and does not touch the store. *)
Definition wrapped {A R : Type} (limit per : Z) (scope_func : option (request → string))
    (f : A → R) (req : request) (current_time : Z) (args : A)
    (store : gmap string (list Z)) : outcome R * gmap string (list Z) :=
  let key := request_key scope_func req in
  check_and_append limit current_time key f args (clean_up per current_time key store).

(** [rate_limit(limit, per, scope_func)] returns the decorator, which
    returns [wrapped]; the defaults are [limit=100, per=60, scope_func=None]. *)
Definition rate_limit {A R : Type} (limit per : Z) (scope_func : option (request → string))
    : (A → R) → request → Z → A → gmap string (list Z) → outcome R * gmap string (list Z) :=
  λ f, wrapped limit per scope_func f.

Definition rate_limit_default {A R : Type}
    : (A → R) → request → Z → A → gmap string (list Z) → outcome R * gmap string (list Z) :=
  rate_limit 100 60 None.

(** The stored window of a key, empty when the key is absent. *)
Definition window (key : string) (store : gmap string (list Z)) : list Z :=
  default [] (store !! key).

(** The two results of the check, read off [wrapped]'s outcome. *)
Inductive status : Type := Allowed | Rejected.

#[global] Instance status_eq_dec : EqDecision status.
Proof. solve_decision. Defined.

Definition status_of {R : Type} (o : outcome R) : option status :=
  match o with
  | Returned _ => Some Allowed
  | Raised (HTTPException 429) => Some Rejected
  | Raised _ => None
  end.

(** A call as the process sees it: the request, the clock reading and the
    view's arguments. *)
Record call (A : Type) : Type :=
  { call_req : request; call_time : Z; call_args : A }.
Arguments call_req {A} c.
Arguments call_time {A} c.
Arguments call_args {A} c.

(** What one call leaves in a trace. *)
Record event : Type :=
  { ev_key : string; ev_time : Z; ev_status : option status }.

(** Calls served one after the other (the lock orders them), from [store].
    Each call carries the clock reading it took at line 55, before it asked
    for the lock. *)
Fixpoint run {A R : Type} (limit per : Z) (scope_func : option (request → string))
    (f : A → R) (calls : list (call A)) (store : gmap string (list Z))
    : list event * gmap string (list Z) :=
  match calls with
  | [] => ([], store)
  | c :: cs =>
      let '(o, store') :=
        wrapped limit per scope_func f (call_req c) (call_time c) (call_args c) store in
      let '(evs, store'') := run limit per scope_func f cs store' in
      ({| ev_key := request_key scope_func (call_req c);
          ev_time := call_time c;
          ev_status := status_of o |} :: evs, store'')
  end.

(** Timestamps of the Allowed outcomes of [key], in trace order. *)
Definition allowed_event (key : string) (e : event) : Prop :=
  ev_key e = key ∧ ev_status e = Some Allowed.

#[global] Instance allowed_event_dec key e : Decision (allowed_event key e).
Proof. unfold allowed_event. apply _. Defined.

Definition allowed_times (key : string) (evs : list event) : list Z :=
  ev_time <$> filter (allowed_event key) evs.

(** The half-open interval [s, s + per) of length [per]. *)
Definition in_interval (s per t : Z) : Prop := s ≤ t ∧ t < s + per.

#[global] Instance in_interval_dec s per t : Decision (in_interval s per t).
Proof. unfold in_interval. apply _. Defined.

Definition allowed_in_interval (key : string) (s per : Z) (evs : list event) : nat :=
  length (filter (in_interval s per) (allowed_times key evs)).

(** What holds between the store and the trace [evs] served so far, when
    no call was later than [T]: read at any time from [T] on, a stored
    window shows the Allowed timestamps of its key that are still kept, and
    no interval holds more than [limit] of them. *)
Definition trace_inv (limit per T : Z) (store : gmap string (list Z))
    (evs : list event) : Prop :=
  (∀ k now, T ≤ now →
     filter (keep per now) (window k store)
     = filter (keep per now) (allowed_times k evs))
  ∧ (∀ k s, Z.of_nat (allowed_in_interval k s per evs) ≤ limit).

(** The calls of a trace made under [key], and the events of [key]. *)
Definition calls_of_key {A : Type} (scope_func : option (request → string))
    (key : string) (calls : list (call A)) : list (call A) :=
  filter (λ c, request_key scope_func (call_req c) = key) calls.

Definition events_of_key (key : string) (evs : list event) : list event :=
  filter (λ e, ev_key e = key) evs.

(** The keys under which a trace calls. *)
Definition keys_of {A : Type} (scope_func : option (request → string))
    (calls : list (call A)) : list string :=
  (λ c, request_key scope_func (call_req c)) <$> calls.

(** Calls of one request with the same arguments at the times [ts]. *)
Definition calls_at {A : Type} (req : request) (args : A) (ts : list Z) : list (call A) :=
  (λ t, {| call_req := req; call_time := t; call_args := args |}) <$> ts.

(** [n] results of which those at positions below [limit] are Allowed,
    counting from [from], and the others Rejected. *)
Definition allowed_below (limit : Z) (from n : nat) : list (option status) :=
  (λ i, if bool_decide (Z.of_nat i < limit) then Some Allowed else Some Rejected)
    <$> seq from n.

(** A string without the separator [":"] that [request_key] inserts. *)
Fixpoint colon_free (s : string) : Prop :=
  match s with
  | EmptyString => True
  | String c s' => String c "" ≠ ":" ∧ colon_free s'
  end.

(** A client, a view and calls at given times, for concrete runs. *)
Definition client : request := {| remote_addr := "10.0.0.1" |}.

Definition view (_ : unit) : string := "ok".

Definition at_time (t : Z) : call unit :=
  {| call_req := client; call_time := t; call_args := tt |}.

End RateLimit.

(** ** app/celery.py *)

Module Celery.

(** Python values that occur in the handlers' result records. *)
#[warnings="-register-all"]
Inductive pyval : Type :=
  | VNone
  | VBool (b : bool)
  | VInt (z : Z)
  | VStr (s : string)
  | VList (l : list pyval)
  | VDict (d : gmap string pyval).

(** A raised exception: its class name, whether the class derives from
    [Exception] (it always derives from [BaseException]), and the value of
    [str(e)], which is taken to succeed. *)
Record exn : Type :=
  { exn_class : string; exn_isinstance_Exception : bool; exn_str : string }.

Definition ImportError (msg : string) : exn :=
  {| exn_class := "ImportError"; exn_isinstance_Exception := true; exn_str := msg |}.
Definition RuntimeError (msg : string) : exn :=
  {| exn_class := "RuntimeError"; exn_isinstance_Exception := true; exn_str := msg |}.
Definition KeyboardInterrupt : exn :=
  {| exn_class := "KeyboardInterrupt"; exn_isinstance_Exception := false; exn_str := "" |}.

Inductive result (A : Type) : Type :=
  | Ok (a : A)
  | Raise (e : exn).
Arguments Ok {A} a.
Arguments Raise {A} e.

(** Logging calls, in the order they are made. *)
Inductive logger : Type := RootLogger | AppLogger.
Inductive level : Type := WARNING | ERROR.
Record log_entry : Type :=
  { log_logger : logger; log_level : level; log_message : string }.

#[global] Instance logger_eq_dec : EqDecision logger.
Proof. solve_decision. Defined.
#[global] Instance level_eq_dec : EqDecision level.
Proof. solve_decision. Defined.

(** The state a handler runs in: the world outside this module (database,
    ORM session, clock, import system) and the log. *)
Record state (W : Type) : Type := { world : W; log : list log_entry }.
Arguments world {W} s.
Arguments log {W} s.

(** Computations that may raise and that change the state. *)
Definition M (W A : Type) : Type := state W → result A * state W.

Definition ret {W A : Type} (a : A) : M W A := λ s, (Ok a, s).

Definition bind {W A B : Type} (c : M W A) (k : A → M W B) : M W B :=
  λ s, match c s with
       | (Ok a, s') => k a s'
       | (Raise e, s') => (Raise e, s')
       end.

Notation "'let*' x ':=' c 'in' k" := (bind c (λ x, k))
  (at level 10, x name, c at level 100, k at level 200).
Notation "c ;;; k" := (bind c (λ _, k))
  (at level 100, k at level 200, right associativity).

(** An operation of the outside world; it cannot touch the log. *)
Definition call_world {W A : Type} (op : W → result A * W) : M W A :=
  λ s, let '(r, w') := op (world s) in (r, {| world := w'; log := log s |}).

(** [logging.error(msg)] and [app.logger.warning(msg)]. *)
Definition emit {W : Type} (lg : logger) (lv : level) (msg : string) : M W unit :=
  λ s, (Ok tt, {| world := world s;
                  log := log s ++ [{| log_logger := lg; log_level := lv; log_message := msg |}] |}).

Definition logging_error {W : Type} (msg : string) : M W unit := emit RootLogger ERROR msg.

(** [try: body  except Exception as e: handler e]. *)
Definition try_except_Exception {W A : Type} (body : M W A) (handler : exn → M W A) : M W A :=
  λ s, match body s with
       | (Ok a, s') => (Ok a, s')
       | (Raise e, s') =>
           if exn_isinstance_Exception e then handler e s' else (Raise e, s')
       end.

(** [for x in xs: body x]. *)
Fixpoint for_each {W A : Type} (xs : list A) (body : A → M W unit) : M W unit :=
  match xs with
  | [] => ret tt
  | x :: xs' => body x ;;; for_each xs' body
  end.

(** A [for] loop that grows a list ([acc.append(..)] in some iterations). *)
Fixpoint for_collect {W A B : Type} (xs : list A) (body : A → M W (option B))
    (acc : list B) : M W (list B) :=
  match xs with
  | [] => ret acc
  | x :: xs' =>
      let* o := body x in
      for_collect xs' body (match o with Some b => acc ++ [b] | None => acc end)
  end.

(** [value or 0] for the value of [.scalar()]. *)
Definition or_0 (v : option Z) : Z :=
  match v with
  | Some z => if bool_decide (z = 0) then 0 else z
  | None => 0
  end.

(** Rows of the ORM models, as far as the handlers read them. *)
Record User : Type :=
  { id : Z; first_name : string; last_name : string; email : string }.
Record PointTransaction : Type := { created_at : Z }.

(** [datetime] values are microseconds since the epoch. *)
Definition timedelta_days (days : Z) : Z := days * 86400000000.

(** The collaborators the handlers call: the import system, the ORM
    queries, the session and the clock.  Each of them may raise. *)
Record Env (W : Type) : Type :=
  { import_from : string → list string → W → result unit * W;
    User_query_filter_by_role_all : string → W → result (list User) * W;
    sum_points_filter_student_id : Z → W → result (option Z) * W;
    sum_points_filter_teacher_id : Z → W → result (option Z) * W;
    set_total_points : User → Z → W → result unit * W;
    set_points_given : User → Z → W → result unit * W;
    db_session_commit : W → result unit * W;
    datetime_utcnow : W → result Z * W;
    isoformat : Z → string;
    date_isoformat : Z → string;
    transactions_count_between : Z → Z → W → result Z * W;
    sum_points_between : Z → Z → W → result (option Z) * W;
    count_distinct_teacher_id_between : Z → Z → W → result (option Z) * W;
    count_distinct_student_id_between : Z → Z → W → result (option Z) * W;
    last_transaction_filter_by_teacher_id : Z → W → result (option PointTransaction) * W }.
Arguments import_from {W} e.
Arguments User_query_filter_by_role_all {W} e.
Arguments sum_points_filter_student_id {W} e.
Arguments sum_points_filter_teacher_id {W} e.
Arguments set_total_points {W} e.
Arguments set_points_given {W} e.
Arguments db_session_commit {W} e.
Arguments datetime_utcnow {W} e.
Arguments isoformat {W} e.
Arguments date_isoformat {W} e.
Arguments transactions_count_between {W} e.
Arguments sum_points_between {W} e.
Arguments count_distinct_teacher_id_between {W} e.
Arguments count_distinct_student_id_between {W} e.
Arguments last_transaction_filter_by_teacher_id {W} e.

(** *** Module import and the Celery fallback (lines 5-45) *)

(** The [try: from celery import Celery ... except ImportError:] block that
    runs when the module is imported.  [celery_importable] says whether
    the import succeeds; the value is [CELERY_AVAILABLE]. *)
Definition import_module (celery_importable : bool) (lg : list log_entry)
    : bool * list log_entry :=
  if celery_importable then (true, lg)
  else (false,
        lg ++ [{| log_logger := RootLogger; log_level := WARNING;
                  log_message :=
                    "Celery not available. Tasks will run synchronously if manually triggered." |}]).

(** The mock [crontab] of the fallback. *)
Definition crontab (minute hour day_of_week day_of_month month_of_year : pyval)
    : gmap string pyval :=
  {[ "minute" := minute; "hour" := hour; "day_of_week" := day_of_week;
     "day_of_month" := day_of_month; "month_of_year" := month_of_year ]}.

(** [DummyTask]: [__call__], [apply_async] and [delay] all call [self.run]. *)
Record DummyTask (W A R : Type) : Type := { run : A → M W R }.
Arguments run {W A R} d.

Definition DummyTask_call {W A R : Type} (self : DummyTask W A R) (args : A) : M W R :=
  run self args.
Definition DummyTask_apply_async {W A R : Type} (self : DummyTask W A R) (args : A) : M W R :=
  run self args.
Definition DummyTask_delay {W A R : Type} (self : DummyTask W A R) (args : A) : M W R :=
  run self args.

(** A function object with the two attributes [DummyCelery.task] sets on
    it.  [task_call] is the function's own code. *)
Record task (W A R : Type) : Type :=
  { task_call : A → M W R;
    delay : A → M W R;
    apply_async : A → M W R }.
Arguments task_call {W A R} t.
Arguments delay {W A R} t.
Arguments apply_async {W A R} t.

(** The inner [decorator(f)] of [DummyCelery.task]. *)
Definition decorator {W A R : Type} (f : A → M W R) : task W A R :=
  {| task_call := f;
     delay := λ args, f args;
     apply_async := λ args, f args |}.

(** [DummyCelery.task] applied to positional arguments [args]:
    [decorator if not args else decorator(args[0])]. *)
Definition DummyCelery_task {W A R : Type} (args : list (A → M W R))
    : ((A → M W R) → task W A R) + task W A R :=
  match args with
  | [] => inl decorator
  | f :: _ => inr (decorator f)
  end.

(** *** init_celery (lines 48-77) *)

(** The part of the [celery] object [init_celery] writes: the entries of
    [conf.beat_schedule] (entry name to task name) and whether [celery.Task]
    has been replaced by [ContextTask]. *)
Record celery_app : Type :=
  { beat_schedule : gmap string string; context_task : bool }.

(** [DummyCelery()]: [conf = {'beat_schedule': {}}]. *)
Definition DummyCelery : celery_app := {| beat_schedule := ∅; context_task := false |}.

Definition init_celery (CELERY_AVAILABLE : bool) (celery : celery_app)
    (lg : list log_entry) : celery_app * list log_entry :=
  if negb CELERY_AVAILABLE then
    (celery,
     lg ++ [{| log_logger := AppLogger; log_level := WARNING;
               log_message :=
                 "Celery not available. Background tasks will run synchronously if manually triggered." |}])
  else
    ({| beat_schedule :=
          {[ "update-point-caches-hourly" := "app.celery.update_point_caches";
             "generate-daily-statistics" := "app.celery.generate_daily_statistics";
             "send-inactivity-notifications" := "app.celery.send_inactivity_notifications" ]};
        context_task := true |}, lg).

(** The warnings that announce the degraded (synchronous) mode. *)
Definition degraded_mode_warning (e : log_entry) : Prop :=
  log_level e = WARNING ∧
  (log_message e = "Celery not available. Tasks will run synchronously if manually triggered."
   ∨ log_message e = "Celery not available. Background tasks will run synchronously if manually triggered.").

#[global] Instance degraded_mode_warning_dec e : Decision (degraded_mode_warning e).
Proof. unfold degraded_mode_warning. apply _. Defined.

Definition degraded_mode_warnings (lg : list log_entry) : nat :=
  length (filter degraded_mode_warning lg).

(** *** The task handlers (lines 80-183) *)

Section Handlers.

Context {W : Type} (E : Env W) (CELERY_AVAILABLE : bool).

(** The failure record of every [except] block. *)
Definition failure_record (e : exn) : gmap string pyval :=
  {[ "success" := VBool false; "error" := VStr (exn_str e) ]}.

(** **** update_point_caches *)

(** Lines 84-86, before the [try]. *)
Definition update_point_caches_imports : M W unit :=
  call_world (import_from E "app" ["db"]) ;;;
  call_world (import_from E "app.models" ["User"; "PointTransaction"]) ;;;
  call_world (import_from E "sqlalchemy" ["func"]).

(** Lines 89-106, the [try] block. *)
Definition update_point_caches_try : M W (gmap string pyval) :=
  let* students := call_world (User_query_filter_by_role_all E "student") in
  for_each students (λ student,
    let* total := call_world (sum_points_filter_student_id E (id student)) in
    call_world (set_total_points E student (or_0 total))) ;;;
  let* teachers := call_world (User_query_filter_by_role_all E "teacher") in
  for_each teachers (λ teacher,
    let* total := call_world (sum_points_filter_teacher_id E (id teacher)) in
    call_world (set_points_given E teacher (or_0 total))) ;;;
  call_world (db_session_commit E) ;;;
  let* now := call_world (datetime_utcnow E) in
  ret ({[ "success" := VBool true; "timestamp" := VStr (isoformat E now) ]} : gmap string pyval).

(** Lines 107-112, the [except Exception as e] block. *)
Definition update_point_caches_except (e : exn) : M W (gmap string pyval) :=
  (if CELERY_AVAILABLE
   then logging_error ("Error updating point caches: " +:+ exn_str e)
   else logging_error ("Error updating point caches (running synchronously): " +:+ exn_str e)) ;;;
  ret (failure_record e).

Definition update_point_caches (_ : unit) : M W (gmap string pyval) :=
  update_point_caches_imports ;;;
  try_except_Exception update_point_caches_try update_point_caches_except.

(** **** generate_daily_statistics *)

(** Lines 119-121. *)
Definition generate_daily_statistics_imports : M W unit :=
  call_world (import_from E "app" ["db"]) ;;;
  call_world (import_from E "app.models" ["PointTransaction"]) ;;;
  call_world (import_from E "sqlalchemy" ["func"]).

(** Lines 124-149. *)
Definition generate_daily_statistics_try : M W (gmap string pyval) :=
  let* now := call_world (datetime_utcnow E) in
  let yesterday := now - timedelta_days 1 in
  let* transactions_count := call_world (transactions_count_between E yesterday now) in
  let* total_points := call_world (sum_points_between E yesterday now) in
  let* active_teachers := call_world (count_distinct_teacher_id_between E yesterday now) in
  let* active_students := call_world (count_distinct_student_id_between E yesterday now) in
  let daily_stats : gmap string pyval :=
    {[ "timestamp" := VStr (isoformat E now);
       "date" := VStr (date_isoformat E yesterday);
       "transactions_count" := VInt transactions_count;
       "total_points" := VInt (or_0 total_points);
       "active_teachers" := VInt (or_0 active_teachers);
       "active_students" := VInt (or_0 active_students) ]} in
  ret daily_stats.

(** Lines 150-152. *)
Definition generate_daily_statistics_except (e : exn) : M W (gmap string pyval) :=
  logging_error ("Error generating daily statistics: " +:+ exn_str e) ;;;
  ret (failure_record e).

Definition generate_daily_statistics (_ : unit) : M W (gmap string pyval) :=
  generate_daily_statistics_imports ;;;
  try_except_Exception generate_daily_statistics_try generate_daily_statistics_except.

(** **** send_inactivity_notifications *)

(** Line 159. *)
Definition send_inactivity_notifications_imports : M W unit :=
  call_world (import_from E "app.models" ["User"; "PointTransaction"]).

(** Lines 168-178, one iteration of the loop: the dictionary appended to
    [inactive_teachers], if any. *)
Definition inactive_teacher_entry (threshold : Z) (teacher : User)
    : M W (option pyval) :=
  let* last_transaction :=
    call_world (last_transaction_filter_by_teacher_id E (id teacher)) in
  let entry (last_activity : pyval) : pyval :=
    VDict {[ "id" := VInt (id teacher);
             "name" := VStr (first_name teacher +:+ " " +:+ last_name teacher);
             "email" := VStr (email teacher);
             "last_activity" := last_activity ]} in
  match last_transaction with
  | None => ret (Some (entry VNone))
  | Some t =>
      if bool_decide (created_at t < threshold)
      then ret (Some (entry (VStr (isoformat E (created_at t)))))
      else ret None
  end.

(** Lines 162-180. *)
Definition send_inactivity_notifications_try : M W (gmap string pyval) :=
  let* now := call_world (datetime_utcnow E) in
  let threshold := now - timedelta_days 7 in
  let* teachers := call_world (User_query_filter_by_role_all E "teacher") in
  let* inactive_teachers := for_collect teachers (inactive_teacher_entry threshold) [] in
  ret ({[ "inactive_teacher_count" := VInt (Z.of_nat (length inactive_teachers));
          "teachers" := VList inactive_teachers ]} : gmap string pyval).

(** Lines 181-183. *)
Definition send_inactivity_notifications_except (e : exn) : M W (gmap string pyval) :=
  logging_error ("Error sending inactivity notifications: " +:+ exn_str e) ;;;
  ret (failure_record e).

Definition send_inactivity_notifications (_ : unit) : M W (gmap string pyval) :=
  send_inactivity_notifications_imports ;;;
  try_except_Exception send_inactivity_notifications_try send_inactivity_notifications_except.

End Handlers.

(** The three handlers with their imports, [try] and [except] blocks. *)
Inductive handler_name : Type :=
  | Update_point_caches
  | Generate_daily_statistics
  | Send_inactivity_notifications.

Definition handler_imports {W : Type} (E : Env W) (h : handler_name) : M W unit :=
  match h with
  | Update_point_caches => update_point_caches_imports E
  | Generate_daily_statistics => generate_daily_statistics_imports E
  | Send_inactivity_notifications => send_inactivity_notifications_imports E
  end.

Definition handler_try {W : Type} (E : Env W) (h : handler_name) : M W (gmap string pyval) :=
  match h with
  | Update_point_caches => update_point_caches_try E
  | Generate_daily_statistics => generate_daily_statistics_try E
  | Send_inactivity_notifications => send_inactivity_notifications_try E
  end.

Definition handler_except {W : Type} (CELERY_AVAILABLE : bool) (h : handler_name)
    (e : exn) : M W (gmap string pyval) :=
  match h with
  | Update_point_caches => update_point_caches_except CELERY_AVAILABLE e
  | Generate_daily_statistics => generate_daily_statistics_except e
  | Send_inactivity_notifications => send_inactivity_notifications_except e
  end.

Definition handler {W : Type} (E : Env W) (CELERY_AVAILABLE : bool) (h : handler_name)
    : unit → M W (gmap string pyval) :=
  match h with
  | Update_point_caches => update_point_caches E CELERY_AVAILABLE
  | Generate_daily_statistics => generate_daily_statistics E
  | Send_inactivity_notifications => send_inactivity_notifications E
  end.

(** *** Process start *)

(** The module is imported, which binds [celery] (to [DummyCelery()] in
    the fallback) and [CELERY_AVAILABLE]; then the application is
    initialised and calls [init_celery] once.  The log starts empty. *)
Definition process_start (celery_importable : bool) : bool * celery_app * list log_entry :=
  let '(CELERY_AVAILABLE, lg) := import_module celery_importable [] in
  let '(celery, lg') := init_celery CELERY_AVAILABLE DummyCelery lg in
  (CELERY_AVAILABLE, celery, lg').

(** A computation that adds to the log only entries of level [ERROR]. *)
Definition logs_only_errors {W A : Type} (c : M W A) : Prop :=
  ∀ s, ∃ l, log (snd (c s)) = log s ++ l ∧ Forall (λ e, log_level e = ERROR) l.

(** *** A small world for concrete runs *)

(** The world is the clock reading; one student, one teacher.  The two
    parameters make the imports, or every ORM query, raise. *)
Definition fallible {A : Type} (fault : option exn) (a : A) (w : Z) : result A * Z :=
  match fault with
  | Some e => (Raise e, w)
  | None => (Ok a, w)
  end.

Definition demo_env (import_fault query_fault : option exn) : Env Z :=
  {| import_from := λ _ _, fallible import_fault tt;
     User_query_filter_by_role_all := λ role,
       fallible query_fault
         (if bool_decide (role = "student")
          then [{| id := 1; first_name := "Ada"; last_name := "Byron"; email := "ada@school" |}]
          else [{| id := 2; first_name := "Grace"; last_name := "Hopper"; email := "grace@school" |}]);
     sum_points_filter_student_id := λ _, fallible query_fault (Some 15);
     sum_points_filter_teacher_id := λ _, fallible query_fault None;
     set_total_points := λ _ _, fallible None tt;
     set_points_given := λ _ _, fallible None tt;
     db_session_commit := fallible query_fault tt;
     datetime_utcnow := λ w, (Ok w, w);
     isoformat := λ _, "2024-01-02T00:05:00";
     date_isoformat := λ _, "2024-01-01";
     transactions_count_between := λ _ _, fallible query_fault 3;
     sum_points_between := λ _ _, fallible query_fault (Some 15);
     count_distinct_teacher_id_between := λ _ _, fallible query_fault (Some 1);
     count_distinct_student_id_between := λ _ _, fallible query_fault (Some 1);
     last_transaction_filter_by_teacher_id := λ _, fallible query_fault None |}.

Definition demo_state : state Z := {| world := 1704153900000000; log := [] |}.

(** A computation that leaves the log as it is. *)
Definition keeps_log {W A : Type} (c : M W A) : Prop :=
  ∀ s, log (snd (c s)) = log s.

(** *** An in-memory database *)

(** A row of the point transactions, with the columns the queries of the
    handlers read. *)
Record transaction_row : Type :=
  { row_student_id : Z; row_teacher_id : Z; row_points : Z; row_created_at : Z }.

(** What the handlers ask the session to do, in the order they ask. *)
Inductive db_write : Type :=
  | SetTotalPoints (user_id total : Z)
  | SetPointsGiven (user_id total : Z)
  | Commit.

#[global] Instance db_write_eq_dec : EqDecision db_write.
Proof. solve_decision. Defined.

(** The tables, the clock reading and the two date formats; [db_sum_fault]
    makes the sum query about a user raise. *)
Record database : Type :=
  { db_students : list User;
    db_teachers : list User;
    db_transactions : list transaction_row;
    db_now : Z;
    db_isoformat : Z → string;
    db_date_isoformat : Z → string;
    db_sum_fault : Z → option exn }.

Definition sum_points (rows : list transaction_row) : Z :=
  foldr (λ r acc, row_points r + acc) 0 rows.

(** [SUM(points)] as [.scalar()] gives it: [None] over no rows. *)
Definition sql_sum (rows : list transaction_row) : option Z :=
  match rows with
  | [] => None
  | _ => Some (sum_points rows)
  end.

(** [COUNT(DISTINCT column)]. *)
Definition sql_count_distinct (column : transaction_row → Z)
    (rows : list transaction_row) : Z :=
  Z.of_nat (length (remove_dups (column <$> rows))).

(** [created_at >= since] and [created_at < before]. *)
Definition created_between (since before : Z) (r : transaction_row) : Prop :=
  since ≤ row_created_at r ∧ row_created_at r < before.

#[global] Instance created_between_dec since before r :
  Decision (created_between since before r).
Proof. unfold created_between. apply _. Defined.

(** [created_at] of the first row of [filter_by(teacher_id=i)] ordered by
    [created_at] descending: the greatest one, if there is a row. *)
Fixpoint last_created_at (i : Z) (rows : list transaction_row) : option Z :=
  match rows with
  | [] => None
  | r :: rows' =>
      if bool_decide (row_teacher_id r = i)
      then Some (match last_created_at i rows' with
                 | Some m => Z.max (row_created_at r) m
                 | None => row_created_at r
                 end)
      else last_created_at i rows'
  end.

(** The collaborators over a database.  The world is the list of writes
    issued so far; reads leave it as it is. *)
Definition memory_env (db : database) : Env (list db_write) :=
  {| import_from := λ _ _ w, (Ok tt, w);
     User_query_filter_by_role_all := λ role w,
       (Ok (if bool_decide (role = "student") then db_students db
            else if bool_decide (role = "teacher") then db_teachers db
            else []), w);
     sum_points_filter_student_id := λ i w,
       match db_sum_fault db i with
       | Some e => (Raise e, w)
       | None => (Ok (sql_sum (filter (λ r, row_student_id r = i) (db_transactions db))), w)
       end;
     sum_points_filter_teacher_id := λ i w,
       match db_sum_fault db i with
       | Some e => (Raise e, w)
       | None => (Ok (sql_sum (filter (λ r, row_teacher_id r = i) (db_transactions db))), w)
       end;
     set_total_points := λ u v w, (Ok tt, w ++ [SetTotalPoints (id u) v]);
     set_points_given := λ u v w, (Ok tt, w ++ [SetPointsGiven (id u) v]);
     db_session_commit := λ w, (Ok tt, w ++ [Commit]);
     datetime_utcnow := λ w, (Ok (db_now db), w);
     isoformat := db_isoformat db;
     date_isoformat := db_date_isoformat db;
     transactions_count_between := λ since before w,
       (Ok (Z.of_nat (length (filter (created_between since before) (db_transactions db)))), w);
     sum_points_between := λ since before w,
       (Ok (sql_sum (filter (created_between since before) (db_transactions db))), w);
     count_distinct_teacher_id_between := λ since before w,
       (Ok (Some (sql_count_distinct row_teacher_id
                    (filter (created_between since before) (db_transactions db)))), w);
     count_distinct_student_id_between := λ since before w,
       (Ok (Some (sql_count_distinct row_student_id
                    (filter (created_between since before) (db_transactions db)))), w);
     last_transaction_filter_by_teacher_id := λ i w,
       (Ok ((λ m, {| created_at := m |}) <$> last_created_at i (db_transactions db)), w) |}.

(** The writes [update_point_caches] issues for a list of users. *)
Definition total_points_writes (db : database) (students : list User) : list db_write :=
  (λ u, SetTotalPoints (id u)
          (sum_points (filter (λ r, row_student_id r = id u) (db_transactions db))))
    <$> students.

Definition points_given_writes (db : database) (teachers : list User) : list db_write :=
  (λ u, SetPointsGiven (id u)
          (sum_points (filter (λ r, row_teacher_id r = id u) (db_transactions db))))
    <$> teachers.

(** A teacher none of whose transactions is as late as [threshold]. *)
Definition no_transaction_since (db : database) (threshold : Z) (teacher : User) : Prop :=
  ∀ r, r ∈ db_transactions db → row_teacher_id r = id teacher →
       row_created_at r < threshold.

#[global] Instance no_transaction_since_dec db threshold teacher :
  Decision (no_transaction_since db threshold teacher).
Proof.
  unfold no_transaction_since.
  destruct (decide (Forall (λ r, row_teacher_id r = id teacher → row_created_at r < threshold)
                      (db_transactions db))) as [Hall|Hnot].
  - left. intros r Hr. by apply (proj1 (Forall_forall _ _) Hall).
  - right. intros Hall. apply Hnot, Forall_forall. exact Hall.
Defined.

(** The dictionary of lines 173-178 for a teacher of the database. *)
Definition inactive_entry (db : database) (teacher : User) : pyval :=
  VDict {[ "id" := VInt (id teacher);
           "name" := VStr (first_name teacher +:+ " " +:+ last_name teacher);
           "email" := VStr (email teacher);
           "last_activity" :=
             match last_created_at (id teacher) (db_transactions db) with
             | Some m => VStr (db_isoformat db m)
             | None => VNone
             end ]}.

(** The [id] of an entry of the [teachers] list. *)
Definition entry_id (v : pyval) : option Z :=
  match v with
  | VDict d => match d !! "id" with Some (VInt i) => Some i | _ => None end
  | _ => None
  end.

(** The [last_activity] of an entry. *)
Definition entry_last_activity (v : pyval) : option pyval :=
  match v with
  | VDict d => d !! "last_activity"
  | _ => None
  end.

(** A small database for concrete runs: two students, two teachers and
    three transactions around the clock reading. *)
Definition demo_db (fault : Z → option exn) : database :=
  {| db_students :=
       [ {| id := 1; first_name := "Ada"; last_name := "Byron"; email := "ada@school" |};
         {| id := 3; first_name := "Alan"; last_name := "Turing"; email := "alan@school" |} ];
     db_teachers :=
       [ {| id := 2; first_name := "Grace"; last_name := "Hopper"; email := "grace@school" |};
         {| id := 4; first_name := "Emmy"; last_name := "Noether"; email := "emmy@school" |} ];
     db_transactions :=
       [ {| row_student_id := 1; row_teacher_id := 2; row_points := 10;
            row_created_at := 1704153900000000 - 3600000000 |};
         {| row_student_id := 1; row_teacher_id := 2; row_points := 5;
            row_created_at := 1704153900000000 - 86400000000 |};
         {| row_student_id := 3; row_teacher_id := 4; row_points := 7;
            row_created_at := 1704153900000000 - 8 * 86400000000 |} ];
     db_now := 1704153900000000;
     db_isoformat := λ _, "2024-01-02T00:05:00";
     db_date_isoformat := λ _, "2024-01-01";
     db_sum_fault := fault |}.

Definition memory_start : state (list db_write) := {| world := []; log := [] |}.

End Celery.

(** * Properties of the rate limiter *)

Section RateLimitFacts.

Import RateLimit.

Context {A R : Type}.
Implicit Types (limit per now : Z) (key : string) (store : gmap string (list Z)).
Implicit Types (scope_func : option (request → string)) (f : A → R).

(** The clean-up writes the filtered window, whether or not the key was
    present. *)
Lemma clean_up_insert per now key store :
  clean_up per now key store
  = <[key := filter (keep per now) (window key store)]> store.
Proof.
  unfold clean_up, window.
  destruct (store !! key) as [w|]; reflexivity.
Qed.

Lemma clean_up_lookup per now key store :
  clean_up per now key store !! key = Some (filter (keep per now) (window key store)).
Proof. rewrite clean_up_insert. apply lookup_insert_eq. Qed.

Lemma clean_up_lookup_ne per now key k store :
  k ≠ key → clean_up per now key store !! k = store !! k.
Proof. intros Hne. rewrite clean_up_insert. by apply lookup_insert_ne. Qed.

(** [wrapped] in one step: the filtered window decides. *)
Lemma wrapped_unfold limit per scope_func f req now args store :
  let key := request_key scope_func req in
  let w := filter (keep per now) (window key store) in
  wrapped limit per scope_func f req now args store
  = if bool_decide (Z.of_nat (length w) >= limit)
    then (Raised (HTTPException 429), <[key := w]> store)
    else (Returned (f args), <[key := w ++ [now]]> store).
Proof.
  intros key w. unfold wrapped, check_and_append. fold key.
  rewrite clean_up_lookup. fold w.
  rewrite clean_up_insert. fold w.
  case_bool_decide; [reflexivity|].
  by rewrite insert_insert_eq.
Qed.

Lemma window_insert key w store : window key (<[key := w]> store) = w.
Proof. unfold window. by rewrite lookup_insert_eq. Qed.

Lemma window_insert_ne key k w store :
  k ≠ key → window k (<[key := w]> store) = window k store.
Proof. intros Hne. unfold window. by rewrite lookup_insert_ne. Qed.

(** Filtering at a later time absorbs filtering at an earlier one. *)
Lemma filter_keep_later per now now' (w : list Z) :
  now ≤ now' →
  filter (keep per now') (filter (keep per now) w) = filter (keep per now') w.
Proof.
  intros Hle. induction w as [|t w IH]; [reflexivity|].
  rewrite !filter_cons.
  destruct (decide (keep per now t)) as [Hk|Hk].
  - rewrite filter_cons. destruct (decide (keep per now' t)); by rewrite IH.
  - rewrite IH. destruct (decide (keep per now' t)) as [Hk'|]; [|reflexivity].
    unfold keep in *. lia.
Qed.

Lemma filter_keep_all per now (w : list Z) :
  Forall (keep per now) w → filter (keep per now) w = w.
Proof.
  induction 1 as [|t w Ht _ IH]; [reflexivity|].
  rewrite filter_cons. destruct (decide (keep per now t)); [by rewrite IH | done].
Qed.

(** A filter by a stronger predicate is no longer. *)
Lemma length_filter_impl {T : Type} (P Q : T → Prop)
    `{∀ x, Decision (P x)} `{∀ x, Decision (Q x)} (l : list T) :
  (∀ x, x ∈ l → P x → Q x) →
  (length (filter P l) ≤ length (filter Q l))%nat.
Proof.
  induction l as [|x l IH]; intros Himp; [reflexivity|].
  rewrite !filter_cons.
  assert (length (filter P l) ≤ length (filter Q l))%nat as IH'.
  { apply IH. intros y Hy. apply Himp. by right. }
  destruct (decide (P x)) as [HP|HP].
  - destruct (decide (Q x)) as [HQ|HQ]; [simpl; lia|].
    exfalso. apply HQ, Himp; [by left | done].
  - destruct (decide (Q x)); simpl; lia.
Qed.

End RateLimitFacts.

Section SlidingWindow.

Import RateLimit.

Context {A R : Type}.
Implicit Types (limit per now : Z) (key : string) (store : gmap string (list Z)).
Implicit Types (scope_func : option (request → string)) (f : A → R).

Lemma allowed_times_snoc key evs e :
  allowed_times key (evs ++ [e])
  = allowed_times key evs ++ (if decide (allowed_event key e) then [ev_time e] else []).
Proof.
  unfold allowed_times. rewrite filter_app, fmap_app. f_equal.
  rewrite filter_cons, filter_nil. by destruct (decide (allowed_event key e)).
Qed.

(** One call keeps the invariant, at the call's own time. *)
Lemma wrapped_trace_inv limit per scope_func f req now args store evs T :
  T ≤ now →
  trace_inv limit per T store evs →
  let r := wrapped limit per scope_func f req now args store in
  trace_inv limit per now (snd r)
    (evs ++ [{| ev_key := request_key scope_func req; ev_time := now;
                ev_status := status_of (fst r) |}]).
Proof.
  intros HT [Hwin Hcnt] r. subst r. rewrite wrapped_unfold.
  set (key := request_key scope_func req).
  set (w := filter (keep per now) (window key store)).
  assert (w = filter (keep per now) (allowed_times key evs)) as Hw by (apply Hwin, HT).
  case_bool_decide as Hfull; simpl.
  - (* rejected: the trace gains no Allowed event *)
    assert (∀ k, allowed_times k
              (evs ++ [{| ev_key := key; ev_time := now; ev_status := Some Rejected |}])
            = allowed_times k evs) as Hsame.
    { intros k. rewrite allowed_times_snoc.
      destruct (decide _) as [[_ Hst]|]; [discriminate Hst | by rewrite app_nil_r]. }
    split.
    + intros k now' Hnow'. rewrite Hsame.
      destruct (decide (k = key)) as [->|Hne].
      * rewrite window_insert. unfold w.
        rewrite filter_keep_later by done. apply Hwin. lia.
      * rewrite window_insert_ne by done. apply Hwin. lia.
    + intros k s. unfold allowed_in_interval. rewrite Hsame. apply Hcnt.
  - (* allowed: [now] joins the window and the trace of [key] *)
    assert (∀ k, allowed_times k
              (evs ++ [{| ev_key := key; ev_time := now; ev_status := Some Allowed |}])
            = allowed_times k evs ++ (if decide (k = key) then [now] else [])) as Hsnoc.
    { intros k. rewrite allowed_times_snoc. f_equal. simpl.
      destruct (decide (allowed_event k _)) as [[Hk _]|Hn];
        destruct (decide (k = key)) as [Hk'|Hk']; simpl in *; try done.
      exfalso. apply Hn. by split. }
    split.
    + intros k now' Hnow'. rewrite Hsnoc.
      destruct (decide (k = key)) as [->|Hne].
      * rewrite window_insert, !filter_app. f_equal. unfold w.
        rewrite filter_keep_later by done. apply Hwin. lia.
      * rewrite window_insert_ne, app_nil_r by done. apply Hwin. lia.
    + intros k s. unfold allowed_in_interval. rewrite Hsnoc.
      destruct (decide (k = key)) as [->|Hne]; [|rewrite app_nil_r; apply Hcnt].
      rewrite filter_app, length_app, filter_cons, filter_nil.
      destruct (decide (in_interval s per now)) as [[Hlo Hhi]|_].
      * (* every Allowed timestamp in the interval is still in the window *)
        assert (length (filter (in_interval s per) (allowed_times key evs))
                ≤ length (filter (keep per now) (allowed_times key evs)))%nat as Hle.
        { apply length_filter_impl. intros t _ [Ht _]. unfold keep. lia. }
        rewrite <- Hw in Hle. simpl. lia.
      * specialize (Hcnt key s). unfold allowed_in_interval in Hcnt. simpl. lia.
Qed.

(** The invariant along a whole trace with a clock that does not go back. *)
Lemma run_trace_inv limit per scope_func f (calls : list (call A)) :
  ∀ store evs T,
    Sorted Z.le (call_time <$> calls) →
    HdRel Z.le T (call_time <$> calls) →
    trace_inv limit per T store evs →
    ∃ T', trace_inv limit per T'
            (snd (run limit per scope_func f calls store))
            (evs ++ fst (run limit per scope_func f calls store)).
Proof.
  induction calls as [|c cs IH]; intros store evs T Hsorted Hhd Hinv.
  - exists T. simpl. by rewrite app_nil_r.
  - rewrite fmap_cons in Hsorted, Hhd.
    apply Sorted_inv in Hsorted as [Hsorted Hhd'].
    apply HdRel_inv in Hhd.
    pose proof (wrapped_trace_inv limit per scope_func f (call_req c) (call_time c)
                  (call_args c) store evs T Hhd Hinv) as Hstep.
    simpl in Hstep. simpl.
    destruct (wrapped limit per scope_func f (call_req c) (call_time c) (call_args c) store)
      as [o store'] eqn:Hwr.
    simpl in Hstep.
    destruct (IH store' _ (call_time c) Hsorted Hhd' Hstep) as [T' HT'].
    exists T'.
    destruct (run limit per scope_func f cs store') as [evs' store''] eqn:Hrun.
    simpl in *. by rewrite <- app_assoc in HT'.
Qed.

Lemma trace_inv_empty limit per T : 0 ≤ limit → trace_inv limit per T ∅ [].
Proof.
  intros Hl. split.
  - intros k now _. unfold window. by rewrite lookup_empty.
  - intros k s. unfold allowed_in_interval, allowed_times. simpl. lia.
Qed.

(** C1 as amended: with a limit [L] that is not negative and window
    length [P], along every sequence of calls served from the empty store
    in an order in which the timestamps do not decrease, the number of
    Allowed outcomes of one key whose timestamps lie in a half-open
    interval [s, s + P) of length [P] never exceeds [L]. *)
Theorem C1_allowed_per_window_bounded (L P : Z) scope_func f (calls : list (call A))
    (key : string) (s : Z) :
  0 ≤ L →
  Sorted Z.le (call_time <$> calls) →
  Z.of_nat (allowed_in_interval key s P (fst (run L P scope_func f calls ∅))) ≤ L.
Proof.
  intros HL Hsorted.
  assert (∃ T, HdRel Z.le T (call_time <$> calls)) as [T Hhd].
  { destruct calls as [|c cs]; [exists 0; constructor|].
    exists (call_time c). rewrite fmap_cons. by constructor. }
  destruct (run_trace_inv L P scope_func f calls ∅ [] T Hsorted Hhd
              (trace_inv_empty L P T HL)) as [T' [_ Hcnt]].
  apply Hcnt.
Qed.

End SlidingWindow.

Section RateLimitClaims.

Import RateLimit.

Context {A R : Type}.
Implicit Types (limit per now : Z) (key : string) (store : gmap string (list Z)).
Implicit Types (scope_func : option (request → string)) (f : A → R).

(** C2: a call reads the stored window of its key (empty when absent) and
    filters it: the timestamps [t] with [now - t < per] stay, in their
    order, and all others are dropped, among them every timestamp older
    than [now - per].  When the filtered count is [>= limit] the call is
    Rejected and the store holds the filtered window, without the current
    timestamp; otherwise the current timestamp is appended to the filtered
    window, the result is stored back and the call is Allowed. *)
Theorem C2_check_filters_then_rejects_or_appends
    limit per scope_func f req now args store :
  let key := request_key scope_func req in
  let w := filter (λ t, now - t < per) (window key store) in
  (∀ t, t ∈ w ↔ t ∈ window key store ∧ now - t < per)
  ∧ (∀ t, t < now - per → t ∉ w)
  ∧ w `sublist_of` window key store
  ∧ let '(o, store') := wrapped limit per scope_func f req now args store in
    if bool_decide (Z.of_nat (length w) >= limit)
    then status_of o = Some Rejected ∧ o = Raised (HTTPException 429)
         ∧ store' = <[key := w]> store ∧ window key store' = w
    else status_of o = Some Allowed ∧ o = Returned (f args)
         ∧ store' = <[key := w ++ [now]]> store ∧ window key store' = w ++ [now].
Proof.
  intros key w.
  assert (filter (keep per now) (window key store) = w) as Hkeep.
  { subst w. apply list_filter_iff. intros t. reflexivity. }
  split; [|split; [|split]].
  - intros t. subst w. rewrite list_elem_of_filter. tauto.
  - intros t Hold Hin. subst w. apply list_elem_of_filter in Hin as [Hin _]. lia.
  - apply sublist_filter.
  - rewrite wrapped_unfold. fold key. rewrite Hkeep.
    case_bool_decide; rewrite window_insert; done.
Qed.

(** C4 as amended: a call is rejected exactly when the filtered window
    holds at least [limit] timestamps, and the rejection is the HTTP
    exception of status 429 that [abort] raises inside [wrapped]: the view
    is not called and nothing is returned.  [wrapped] raises nothing else,
    so the 429 is told apart from every other outcome. *)
Theorem C4_rejected_is_abort_429 limit per scope_func f req now args store :
  let key := request_key scope_func req in
  let w := filter (keep per now) (window key store) in
  let o := fst (wrapped limit per scope_func f req now args store) in
  (o = Raised (HTTPException 429) ∨ o = Returned (f args))
  ∧ (Z.of_nat (length w) >= limit ↔ o = Raised (HTTPException 429))
  ∧ (Z.of_nat (length w) >= limit ↔ status_of o = Some Rejected)
  ∧ (status_of o = Some Rejected → ∀ r, o ≠ Returned r).
Proof.
  intros key w o. subst o. rewrite wrapped_unfold. fold key. fold w.
  case_bool_decide; simpl; repeat split; try tauto; try done; auto.
Qed.

(** C5: when the stored window of a key holds at least [limit] timestamps
    and none of them has expired at the time of either call, two checks in
    a row are both Rejected and leave the store, and so the window of the
    key, exactly as it was. *)
Theorem C5_rejection_leaves_window_unchanged
    limit per scope_func f req now1 now2 args1 args2 store (w : list Z) :
  let key := request_key scope_func req in
  store !! key = Some w →
  Z.of_nat (length w) >= limit →
  Forall (keep per now1) w →
  Forall (keep per now2) w →
  let r1 := wrapped limit per scope_func f req now1 args1 store in
  let r2 := wrapped limit per scope_func f req now2 args2 (snd r1) in
  status_of (fst r1) = Some Rejected
  ∧ status_of (fst r2) = Some Rejected
  ∧ snd r1 = store
  ∧ snd r2 = store
  ∧ snd r2 !! key = Some w.
Proof.
  intros key Hlook Hfull Hk1 Hk2 r1 r2.
  assert (window key store = w) as Hwin by (unfold window; by rewrite Hlook).
  assert (r1 = (Raised (HTTPException 429), store)) as Hr1.
  { subst r1. rewrite wrapped_unfold. fold key.
    rewrite Hwin, filter_keep_all by done.
    rewrite bool_decide_eq_true_2 by done. by rewrite insert_id. }
  assert (r2 = (Raised (HTTPException 429), store)) as Hr2.
  { subst r2. rewrite Hr1. simpl. rewrite wrapped_unfold. fold key.
    rewrite Hwin, filter_keep_all by done.
    rewrite bool_decide_eq_true_2 by done. by rewrite insert_id. }
  rewrite Hr1, Hr2. simpl. done.
Qed.

(** C6 as amended: a check at time [now] purges from the window of its key
    exactly the timestamps [t] with [now - t >= per], that is [t <= now - per];
    a timestamp exactly [per] old is purged, the younger ones are kept in
    their order.  Only the window of the accessed key is touched. *)
Theorem C6_purges_at_least_per_old limit per scope_func f req now args store :
  let key := request_key scope_func req in
  let store' := snd (wrapped limit per scope_func f req now args store) in
  let kept := filter (λ t, now - per < t) (window key store) in
  (window key store' = kept ∨ window key store' = kept ++ [now])
  ∧ (∀ t, t ∈ window key store → (t ∈ kept ↔ ¬ t ≤ now - per))
  ∧ (now - per ∉ kept)
  ∧ (∀ k, k ≠ key → store' !! k = store !! k).
Proof.
  intros key store' kept.
  assert (kept = filter (keep per now) (window key store)) as Hkept.
  { subst kept. apply list_filter_iff. intros t. unfold keep. lia. }
  subst store'. rewrite wrapped_unfold. fold key. rewrite <- Hkept.
  repeat split.
  - case_bool_decide; simpl; rewrite window_insert; auto.
  - intros Hin. apply list_elem_of_filter in Hin as [Hin _]. lia.
  - intros Hn. apply list_elem_of_filter. split; [lia | done].
  - intros Hin. apply list_elem_of_filter in Hin as [Hin _]. lia.
  - intros k Hne. case_bool_decide; simpl; by rewrite lookup_insert_ne.
Qed.

(** C9: with [limit = 0] every call is Rejected, whatever the store and
    the key, the first call on an empty window included; the store keeps
    the filtered window of the key and the current timestamp is not
    appended.  Along any trace from the empty store every outcome is
    Rejected and every window stays empty. *)
Theorem C9_limit_zero_rejects_everything per scope_func f :
  (∀ req now args store,
     let key := request_key scope_func req in
     wrapped 0 per scope_func f req now args store
     = (Raised (HTTPException 429),
        <[key := filter (keep per now) (window key store)]> store))
  ∧ (∀ req now args,
       status_of (fst (wrapped 0 per scope_func f req now args ∅)) = Some Rejected
       ∧ window (request_key scope_func req)
           (snd (wrapped 0 per scope_func f req now args ∅)) = [])
  ∧ (∀ calls : list (call A),
       Forall (λ e, ev_status e = Some Rejected) (fst (run 0 per scope_func f calls ∅))
       ∧ ∀ k, window k (snd (run 0 per scope_func f calls ∅)) = []).
Proof.
  assert (∀ req now args store,
            wrapped 0 per scope_func f req now args store
            = (Raised (HTTPException 429),
               <[request_key scope_func req
                 := filter (keep per now) (window (request_key scope_func req) store)]> store))
    as Hone.
  { intros. rewrite wrapped_unfold. rewrite bool_decide_eq_true_2 by lia. done. }
  split; [exact Hone|]. split.
  - intros req now args. rewrite Hone. simpl. rewrite window_insert.
    unfold window. by rewrite lookup_empty.
  - intros calls.
    assert (∀ store, (∀ k, window k store = []) →
              Forall (λ e, ev_status e = Some Rejected) (fst (run 0 per scope_func f calls store))
              ∧ ∀ k, window k (snd (run 0 per scope_func f calls store)) = []) as Hgen.
    { induction calls as [|c cs IH]; intros store Hemp; [by split|].
      simpl. rewrite Hone.
      set (store' := <[_ := _]> store).
      assert (∀ k, window k store' = []) as Hemp'.
      { intros k. subst store'.
        destruct (decide (k = request_key scope_func (call_req c))) as [->|Hne].
        - rewrite window_insert, Hemp. reflexivity.
        - rewrite window_insert_ne by done. apply Hemp. }
      destruct (IH store' Hemp') as [Hev Hwin].
      destruct (run 0 per scope_func f cs store') as [evs st]. simpl in *.
      split; [by constructor | done]. }
    apply Hgen. intros k. unfold window. by rewrite lookup_empty.
Qed.

End RateLimitClaims.

(** ** Concrete runs of the rate limiter *)

Section RateLimitRuns.

Import RateLimit.

(** Limit 1 per 10 ticks: calls at 100, 105, 110 and 110 again. *)
Example run_limit_1 :
  fst (run 1 10 None view [at_time 100; at_time 105; at_time 110; at_time 110] ∅)
  = [ {| ev_key := "10.0.0.1"; ev_time := 100; ev_status := Some Allowed |};
      {| ev_key := "10.0.0.1"; ev_time := 105; ev_status := Some Rejected |};
      {| ev_key := "10.0.0.1"; ev_time := 110; ev_status := Some Allowed |};
      {| ev_key := "10.0.0.1"; ev_time := 110; ev_status := Some Rejected |} ].
Proof. vm_compute. reflexivity. Qed.

(** C1 at that trace and the interval [101, 111). *)
Lemma C1_witness :
  Z.of_nat (allowed_in_interval "10.0.0.1" 101 10
              (fst (run 1 10 None view
                      [at_time 100; at_time 105; at_time 110; at_time 110] ∅))) ≤ 1.
Proof.
  apply (C1_allowed_per_window_bounded 1 10 None view
           [at_time 100; at_time 105; at_time 110; at_time 110] "10.0.0.1" 101).
  - lia.
  - simpl. repeat first [lia | constructor].
Defined.

(** C1 as stated fails.  The clock is read before the lock is asked for,
    so a call stamped 109 can be served after one stamped 111: with limit 2
    and [per = 10] the calls stamped 100, 101, 111 and 109, served in this
    order, are all Allowed, and three of them lie in [100, 110).  And on a
    trace in timestamp order with limit 1, the calls at 100 and 110 are both
    Allowed and both lie in the closed interval from 100 to 110. *)
Lemma C1_counterexample :
  (ev_status <$> fst (run 2 10 None view
                        [at_time 100; at_time 101; at_time 111; at_time 109] ∅)
   = [Some Allowed; Some Allowed; Some Allowed; Some Allowed]
   ∧ allowed_in_interval "10.0.0.1" 100 10
       (fst (run 2 10 None view [at_time 100; at_time 101; at_time 111; at_time 109] ∅))
     = 3%nat
   ∧ ¬ (Z.of_nat (allowed_in_interval "10.0.0.1" 100 10
                    (fst (run 2 10 None view
                            [at_time 100; at_time 101; at_time 111; at_time 109] ∅)))
        ≤ 2))
  ∧ (Sorted Z.le (call_time <$> [at_time 100; at_time 105; at_time 110; at_time 110])
     ∧ length (filter (λ t, 100 ≤ t ∧ t ≤ 100 + 10)
                 (allowed_times "10.0.0.1"
                    (fst (run 1 10 None view
                            [at_time 100; at_time 105; at_time 110; at_time 110] ∅))))
       = 2%nat).
Proof.
  assert (allowed_in_interval "10.0.0.1" 100 10
            (fst (run 2 10 None view [at_time 100; at_time 101; at_time 111; at_time 109] ∅))
          = 3%nat) as Hthree by (vm_compute; reflexivity).
  split.
  - split; [vm_compute; reflexivity|]. split; [exact Hthree|]. rewrite Hthree. lia.
  - split; [simpl; repeat first [lia | constructor] | vm_compute; reflexivity].
Qed.

(** The bound is about half-open intervals: the closed interval [100, 110]
    holds both Allowed calls of the trace above. *)
Example closed_interval_holds_two :
  length (filter (λ t, 100 ≤ t ≤ 110)
            (allowed_times "10.0.0.1"
               (fst (run 1 10 None view
                       [at_time 100; at_time 105; at_time 110; at_time 110] ∅))))
  = 2%nat.
Proof. vm_compute. reflexivity. Qed.

(** The bound needs the clock not to go back: a call stamped 105 served
    after one stamped 200 is Allowed although 100 and 101 were. *)
Example clock_going_back_admits_three :
  allowed_in_interval "10.0.0.1" 100 10
    (fst (run 2 10 None view [at_time 100; at_time 101; at_time 200; at_time 105] ∅))
  = 3%nat.
Proof. vm_compute. reflexivity. Qed.

(** C4 as stated fails: with the window full the call does not return a
    status, [wrapped] raises the HTTP exception 429. *)
Lemma C4_counterexample :
  let o := fst (wrapped 1 60 None view client 101 tt {[ "10.0.0.1" := [100] ]}) in
  status_of o = Some Rejected
  ∧ o = Raised (HTTPException 429)
  ∧ ¬ ∃ r, o = Returned r.
Proof.
  vm_compute. repeat split; try reflexivity.
  intros [r Hr]. discriminate Hr.
Qed.

(** C5 at a full window of two timestamps, checked at 110 and at 120. *)
Lemma C5_witness :
  let store : gmap string (list Z) := {[ "10.0.0.1" := [100; 101] ]} in
  let r1 := wrapped 2 60 None view client 110 tt store in
  let r2 := wrapped 2 60 None view client 120 tt (snd r1) in
  status_of (fst r1) = Some Rejected
  ∧ status_of (fst r2) = Some Rejected
  ∧ snd r1 = store
  ∧ snd r2 = store
  ∧ snd r2 !! "10.0.0.1" = Some [100; 101].
Proof.
  apply (C5_rejection_leaves_window_unchanged 2 60 None view client 110 120 tt tt
           {[ "10.0.0.1" := [100; 101] ]} [100; 101]).
  - reflexivity.
  - simpl. lia.
  - repeat constructor; unfold keep; lia.
  - repeat constructor; unfold keep; lia.
Defined.

(** C6 as stated fails: at time 110 with [per = 10] the timestamp 100 is
    exactly [per] old, it is not older than [now - per], and it is purged. *)
Lemma C6_counterexample :
  let store : gmap string (list Z) := {[ "10.0.0.1" := [100] ]} in
  let store' := snd (wrapped 5 10 None view client 110 tt store) in
  100 ∈ window "10.0.0.1" store
  ∧ ¬ (100 < 110 - 10)
  ∧ (100 ∉ window "10.0.0.1" store')
  ∧ window "10.0.0.1" store' = [110].
Proof.
  assert (window "10.0.0.1" ({[ "10.0.0.1" := [100] ]} : gmap string (list Z)) = [100])
    as Hbefore by reflexivity.
  assert (window "10.0.0.1"
            (snd (wrapped 5 10 None view client 110 tt {[ "10.0.0.1" := [100] ]})) = [110])
    as Hafter by (vm_compute; reflexivity).
  simpl. rewrite Hbefore, Hafter.
  split; [apply list_elem_of_here|].
  split; [lia|].
  split; [|reflexivity].
  intros Hin. apply list_elem_of_singleton in Hin. lia.
Qed.

(** One tick earlier the same timestamp is kept. *)
Example kept_one_tick_earlier :
  window "10.0.0.1" (snd (wrapped 5 10 None view client 109 tt {[ "10.0.0.1" := [100] ]}))
  = [100; 109].
Proof. vm_compute. reflexivity. Qed.

(** Limit 0: the first call on the empty store is rejected and leaves an
    empty window. *)
Example limit_zero_first_call :
  wrapped 0 60 None view client 100 tt ∅
  = (Raised (HTTPException 429), {[ "10.0.0.1" := [] ]}).
Proof. vm_compute. reflexivity. Qed.

End RateLimitRuns.

(** * Properties of the task module *)

Section MonadFacts.

Import Celery.

Context {W : Type}.

Lemma bind_Ok_inv {A B : Type} (c : M W A) (k : A → M W B) s b s' :
  bind c k s = (Ok b, s') →
  ∃ a s1, c s = (Ok a, s1) ∧ k a s1 = (Ok b, s').
Proof.
  unfold bind. destruct (c s) as [[a|e] s1]; intros Heq; [eauto | discriminate Heq].
Qed.

Lemma bind_Raise_inv {A B : Type} (c : M W A) (k : A → M W B) s e s' :
  bind c k s = (Raise e, s') →
  c s = (Raise e, s') ∨ ∃ a s1, c s = (Ok a, s1) ∧ k a s1 = (Raise e, s').
Proof.
  unfold bind. destruct (c s) as [[a|e0] s1]; simpl; intros Heq;
    [right; eauto | left; injection Heq as -> ->; reflexivity].
Qed.

Lemma bind_Ok {A B : Type} (c : M W A) (k : A → M W B) s a s1 :
  c s = (Ok a, s1) → bind c k s = k a s1.
Proof. intros Hc. unfold bind. by rewrite Hc. Qed.

Lemma try_except_Ok {A : Type} (body : M W A) handler s a s' :
  body s = (Ok a, s') → try_except_Exception body handler s = (Ok a, s').
Proof. intros Hb. unfold try_except_Exception. by rewrite Hb. Qed.

Lemma try_except_caught {A : Type} (body : M W A) handler s e s' :
  body s = (Raise e, s') → exn_isinstance_Exception e = true →
  try_except_Exception body handler s = handler e s'.
Proof. intros Hb He. unfold try_except_Exception. by rewrite Hb, He. Qed.

Lemma try_except_passed {A : Type} (body : M W A) handler s e s' :
  body s = (Raise e, s') → exn_isinstance_Exception e = false →
  try_except_Exception body handler s = (Raise e, s').
Proof. intros Hb He. unfold try_except_Exception. by rewrite Hb, He. Qed.

(** Closure of [logs_only_errors] under the combinators. *)
Lemma loe_ret {A : Type} (a : A) : logs_only_errors (ret a : M W A).
Proof. intros s. exists []. simpl. by rewrite app_nil_r. Qed.

Lemma loe_call_world {A : Type} (op : W → result A * W) :
  logs_only_errors (call_world op).
Proof.
  intros s. exists []. unfold call_world.
  destruct (op (world s)) as [r w']. simpl. by rewrite app_nil_r.
Qed.

Lemma loe_logging_error (msg : string) : logs_only_errors (logging_error msg : M W unit).
Proof. intros s. eexists. simpl. split; [reflexivity|]. by repeat constructor. Qed.

Lemma loe_bind {A B : Type} (c : M W A) (k : A → M W B) :
  logs_only_errors c → (∀ a, logs_only_errors (k a)) → logs_only_errors (bind c k).
Proof.
  intros Hc Hk s. unfold bind.
  destruct (Hc s) as [l1 [Hl1 Hf1]].
  destruct (c s) as [[a|e] s1]; simpl in *; [|by exists l1].
  destruct (Hk a s1) as [l2 [Hl2 Hf2]].
  exists (l1 ++ l2). rewrite Hl2, Hl1, app_assoc. split; [done | by apply Forall_app].
Qed.

Lemma loe_try_except {A : Type} (body : M W A) handler :
  logs_only_errors body → (∀ e, logs_only_errors (handler e)) →
  logs_only_errors (try_except_Exception body handler).
Proof.
  intros Hb Hh s. unfold try_except_Exception.
  destruct (Hb s) as [l1 [Hl1 Hf1]].
  destruct (body s) as [[a|e] s1]; simpl in *; [by exists l1|].
  destruct (exn_isinstance_Exception e); [|by exists l1].
  destruct (Hh e s1) as [l2 [Hl2 Hf2]].
  exists (l1 ++ l2). rewrite Hl2, Hl1, app_assoc. split; [done | by apply Forall_app].
Qed.

Lemma loe_for_each {A : Type} (xs : list A) (body : A → M W unit) :
  (∀ x, logs_only_errors (body x)) → logs_only_errors (for_each xs body).
Proof.
  intros Hb. induction xs as [|x xs IH]; simpl; [apply loe_ret|].
  apply loe_bind; [apply Hb | intros _; apply IH].
Qed.

Lemma loe_for_collect {A B : Type} (xs : list A) (body : A → M W (option B)) :
  (∀ x, logs_only_errors (body x)) → ∀ acc, logs_only_errors (for_collect xs body acc).
Proof.
  intros Hb. induction xs as [|x xs IH]; intros acc; simpl; [apply loe_ret|].
  apply loe_bind; [apply Hb | intros o; apply IH].
Qed.

End MonadFacts.

Ltac loe_step :=
  first [ apply loe_ret | apply loe_call_world | apply loe_logging_error
        | apply loe_bind; [|intros ?]
        | apply loe_try_except; [|intros ?]
        | apply loe_for_each; intros ?
        | apply loe_for_collect; intros ?
        | match goal with
          | |- Celery.logs_only_errors (match ?x with _ => _ end) => destruct x
          end ].

Section HandlerFacts.

Import Celery.

Context {W : Type} (E : Env W) (CELERY_AVAILABLE : bool).

Lemma handler_unfold h s :
  handler E CELERY_AVAILABLE h tt s
  = bind (handler_imports E h)
      (λ _, try_except_Exception (handler_try E h) (handler_except CELERY_AVAILABLE h)) s.
Proof. by destruct h. Qed.

Lemma handler_except_unfold h e (s : state W) :
  ∃ msg, handler_except CELERY_AVAILABLE h e s
         = (Ok (failure_record e),
            {| world := world s;
               log := log s ++ [{| log_logger := RootLogger; log_level := ERROR;
                                   log_message := msg +:+ exn_str e |}] |}).
Proof.
  destruct h; simpl.
  - unfold update_point_caches_except. destruct CELERY_AVAILABLE; eexists; reflexivity.
  - eexists; reflexivity.
  - eexists; reflexivity.
Qed.

Lemma handler_logs_only_errors h : logs_only_errors (handler E CELERY_AVAILABLE h tt).
Proof.
  destruct h; simpl.
  - unfold update_point_caches, update_point_caches_imports, update_point_caches_try,
      update_point_caches_except.
    repeat loe_step.
  - unfold generate_daily_statistics, generate_daily_statistics_imports,
      generate_daily_statistics_try, generate_daily_statistics_except.
    repeat loe_step.
  - unfold send_inactivity_notifications, send_inactivity_notifications_imports,
      send_inactivity_notifications_try, send_inactivity_notifications_except,
      inactive_teacher_entry.
    repeat loe_step.
Qed.

(** The record a [try] block returns when it does not raise. *)
Lemma handler_try_record h s r s' :
  handler_try E h s = (Ok r, s') →
  r !! "success" = match h with
                   | Update_point_caches => Some (VBool true)
                   | _ => None
                   end
  ∧ r !! "error" = None.
Proof.
  destruct h; simpl; intros Hrun.
  - unfold update_point_caches_try in Hrun.
    repeat (apply bind_Ok_inv in Hrun as (? & ? & _ & Hrun)).
    injection Hrun as <- _. by split.
  - unfold generate_daily_statistics_try in Hrun.
    repeat (apply bind_Ok_inv in Hrun as (? & ? & _ & Hrun)).
    injection Hrun as <- _. by split.
  - unfold send_inactivity_notifications_try in Hrun.
    repeat (apply bind_Ok_inv in Hrun as (? & ? & _ & Hrun)).
    injection Hrun as <- _. by split.
Qed.

Lemma failure_record_lookup e :
  failure_record e !! "success" = Some (VBool false)
  ∧ failure_record e !! "error" = Some (VStr (exn_str e)).
Proof. by split. Qed.

End HandlerFacts.

Section TaskClaims.

Import Celery.

Context {W : Type}.

(** C3 as amended: once the function-level imports of a handler have
    succeeded, every exception raised in its [try] block that is an
    instance of [Exception] is caught in the handler, logged at level ERROR
    and turned into the record [{success: False, error: str(e)}], which the
    handler returns; the only exceptions a handler lets through are those
    that are not instances of [Exception]. *)
Theorem C3_exceptions_become_failure_records (E : Env W) (CELERY_AVAILABLE : bool)
    (h : handler_name) (s s1 : state W) :
  handler_imports E h s = (Ok tt, s1) →
  match handler_try E h s1 with
  | (Ok r, s2) => handler E CELERY_AVAILABLE h tt s = (Ok r, s2)
  | (Raise e, s2) =>
      if exn_isinstance_Exception e
      then ∃ msg,
             handler E CELERY_AVAILABLE h tt s
             = (Ok (failure_record e),
                {| world := world s2;
                   log := log s2 ++ [{| log_logger := RootLogger; log_level := ERROR;
                                        log_message := msg +:+ exn_str e |}] |})
             ∧ failure_record e !! "success" = Some (VBool false)
             ∧ failure_record e !! "error" = Some (VStr (exn_str e))
      else handler E CELERY_AVAILABLE h tt s = (Raise e, s2)
  end
  ∧ ∀ e s', handler E CELERY_AVAILABLE h tt s = (Raise e, s') →
            exn_isinstance_Exception e = false.
Proof.
  intros Himp.
  assert (handler E CELERY_AVAILABLE h tt s
          = try_except_Exception (handler_try E h) (handler_except CELERY_AVAILABLE h) s1)
    as Hrun.
  { rewrite handler_unfold. unfold bind. by rewrite Himp. }
  rewrite Hrun. unfold try_except_Exception.
  destruct (handler_try E h s1) as [[r|e] s2].
  - split; [reflexivity | intros e s' Heq; discriminate Heq].
  - destruct (exn_isinstance_Exception e) eqn:Hcls.
    + destruct (handler_except_unfold CELERY_AVAILABLE h e s2) as [msg Hexc].
      rewrite Hexc. split.
      * exists msg. split; [reflexivity | apply failure_record_lookup].
      * intros e' s' Heq. discriminate Heq.
    + split; [reflexivity|]. intros e' s' Heq. by injection Heq as <- _.
Qed.

(** C7: in the fallback, [delay] and [apply_async] of a decorated task give
    the result of calling the function itself with the same arguments, in
    the same final state; the value is the handler's own result.  The same
    holds for [DummyTask] and its [run]. *)
Theorem C7_synchronous_dispatch_is_inline_call {A R : Type}
    (f : A → M W R) (args : A) (s : state W) :
  delay (decorator f) args s = f args s
  ∧ apply_async (decorator f) args s = f args s
  ∧ task_call (decorator f) args s = f args s
  ∧ (∀ rest, ∃ t, DummyCelery_task (f :: rest) = inr t
                  ∧ delay t args s = f args s
                  ∧ apply_async t args s = f args s)
  ∧ (∃ d, DummyCelery_task (W := W) (A := A) (R := R) [] = inl d
          ∧ delay (d f) args s = f args s
          ∧ apply_async (d f) args s = f args s)
  ∧ (∀ t : DummyTask W A R,
       DummyTask_delay t args s = run t args s
       ∧ DummyTask_apply_async t args s = run t args s
       ∧ DummyTask_call t args s = run t args s).
Proof.
  repeat split.
  - intros rest. exists (decorator f). by repeat split.
  - exists decorator. by repeat split.
Qed.

(** C8 as amended: when Celery cannot be imported the module sets
    [CELERY_AVAILABLE = False], binds [celery] to the dummy, and logs one
    degraded-mode warning on the root logger; every call of [init_celery]
    then logs one more on the application logger and changes nothing else.
    A start that imports the module and initialises the application once
    has logged two.  Dispatching a task logs nothing of its own, and the
    three handlers add no such warning. *)
Theorem C8_degraded_mode_warning_at_import_and_at_init
    (E : Env W) (h : handler_name) (s : state W)
    (celery : celery_app) (lg : list log_entry) :
  (fst (import_module false lg) = false
   ∧ degraded_mode_warnings (snd (import_module false lg))
     = S (degraded_mode_warnings lg))
  ∧ (fst (init_celery false celery lg) = celery
     ∧ degraded_mode_warnings (snd (init_celery false celery lg))
       = S (degraded_mode_warnings lg))
  ∧ (fst (fst (process_start false)) = false
     ∧ snd (fst (process_start false)) = DummyCelery
     ∧ degraded_mode_warnings (snd (process_start false)) = 2%nat)
  ∧ (log (snd (delay (decorator (handler E false h)) tt s))
     = log (snd (handler E false h tt s))
     ∧ degraded_mode_warnings (log (snd (delay (decorator (handler E false h)) tt s)))
       = degraded_mode_warnings (log s)).
Proof.
  assert (∀ l e, degraded_mode_warning e →
            degraded_mode_warnings (l ++ [e]) = S (degraded_mode_warnings l)) as Hsnoc.
  { intros l e He. unfold degraded_mode_warnings.
    rewrite filter_app, length_app, filter_cons, filter_nil.
    destruct (decide (degraded_mode_warning e)); [simpl; lia | done]. }
  split; [|split; [|split]].
  - split; [reflexivity|]. simpl. apply Hsnoc. split; [reflexivity | by left].
  - split; [reflexivity|]. simpl. apply Hsnoc. split; [reflexivity | by right].
  - by repeat split.
  - split; [reflexivity|]. simpl.
    destruct (handler_logs_only_errors E false h s) as [l [Hl Hf]].
    rewrite Hl. unfold degraded_mode_warnings. rewrite filter_app, length_app.
    assert (filter degraded_mode_warning l = []) as ->.
    { clear Hl. induction Hf as [|e l He _ IH]; [reflexivity|].
      rewrite filter_cons, IH.
      destruct (decide (degraded_mode_warning e)) as [[Hlv _]|]; [|reflexivity].
      rewrite He in Hlv. discriminate Hlv. }
    simpl. lia.
Qed.


End TaskClaims.

(** ** Concrete runs of the task module *)

Section TaskRuns.

Import Celery.

(** C3 as stated fails: a [KeyboardInterrupt] raised by the first query of
    [update_point_caches] is not an [Exception], so the [except] block does
    not catch it and the handler lets it through to its caller. *)
Lemma C3_counterexample :
  handler (demo_env None (Some KeyboardInterrupt)) false Update_point_caches tt demo_state
  = (Raise KeyboardInterrupt, demo_state)
  ∧ exn_isinstance_Exception KeyboardInterrupt = false
  ∧ ∀ r s', handler (demo_env None (Some KeyboardInterrupt)) false Update_point_caches
              tt demo_state ≠ (Ok r, s').
Proof.
  assert (handler (demo_env None (Some KeyboardInterrupt)) false Update_point_caches
            tt demo_state = (Raise KeyboardInterrupt, demo_state)) as Hrun
    by (vm_compute; reflexivity).
  split; [exact Hrun|]. split; [reflexivity|].
  intros r s'. rewrite Hrun. discriminate.
Qed.

(** C3 where every query raises [RuntimeError("db down")]: the handler
    returns the failure record and logs the error. *)
Lemma C3_witness :
  ∃ msg,
    handler (demo_env None (Some (RuntimeError "db down"))) false Update_point_caches
      tt demo_state
    = (Ok (failure_record (RuntimeError "db down")),
       {| world := world demo_state;
          log := [{| log_logger := RootLogger; log_level := ERROR;
                     log_message := msg +:+ "db down" |}] |}).
Proof.
  destruct (C3_exceptions_become_failure_records
              (demo_env None (Some (RuntimeError "db down"))) false Update_point_caches
              demo_state demo_state eq_refl) as [Hcaught _].
  destruct Hcaught as [msg [Hrun _]].
  exists msg. exact Hrun.
Defined.

(** Two failing runs in a row both return the failure record. *)
Example two_failing_runs :
  let E := demo_env None (Some (RuntimeError "db down")) in
  let r1 := generate_daily_statistics E tt demo_state in
  let r2 := generate_daily_statistics E tt (snd r1) in
  fst r1 = Ok (failure_record (RuntimeError "db down"))
  ∧ fst r2 = Ok (failure_record (RuntimeError "db down"))
  ∧ length (log (snd r2)) = 2%nat.
Proof. vm_compute. by repeat split. Qed.

(** The imports run before the [try]: when one of them raises, the
    exception leaves the handler although it is an [Exception]. *)
Example failing_import_leaves_handler :
  fst (handler (demo_env (Some (ImportError "No module named sqlalchemy")) None) false
         Generate_daily_statistics tt demo_state)
  = Raise (ImportError "No module named sqlalchemy").
Proof. vm_compute. reflexivity. Qed.

(** C8 as stated fails: a start without Celery logs the degraded-mode
    warning twice, once at import and once in [init_celery]. *)
Lemma C8_counterexample :
  degraded_mode_warnings (snd (process_start false)) = 2%nat
  ∧ degraded_mode_warnings (snd (process_start false)) ≠ 1%nat
  ∧ log_logger <$> snd (process_start false) = [RootLogger; AppLogger].
Proof.
  assert (degraded_mode_warnings (snd (process_start false)) = 2%nat) as Htwo
    by (vm_compute; reflexivity).
  split; [exact Htwo|]. split; [rewrite Htwo; discriminate | reflexivity].
Qed.

(** With Celery importable nothing is logged. *)
Example start_with_celery_logs_nothing : snd (process_start true) = [].
Proof. reflexivity. Qed.


(** The three success records and the failure record, side by side. *)
Example success_key_of_each_handler :
  let E := demo_env None None in
  (∃ r, fst (update_point_caches E false tt demo_state) = Ok r
        ∧ r !! "success" = Some (VBool true))
  ∧ (∃ r, fst (generate_daily_statistics E tt demo_state) = Ok r
          ∧ r !! "success" = None)
  ∧ (∃ r, fst (send_inactivity_notifications E tt demo_state) = Ok r
          ∧ r !! "success" = None
          ∧ r !! "inactive_teacher_count" = Some (VInt 1)).
Proof.
  simpl. repeat split; eexists; (split; [vm_compute; reflexivity|]); by vm_compute.
Qed.

(** Dispatch in the fallback returns the handler's own record. *)
Example delay_returns_record :
  fst (delay (decorator (update_point_caches (demo_env None None) false)) tt demo_state)
  = Ok {[ "success" := VBool true; "timestamp" := VStr "2024-01-02T00:05:00" ]}.
Proof. vm_compute. reflexivity. Qed.

End TaskRuns.

(** * Further properties of the rate limiter *)

Section RateLimitStore.

Import RateLimit.

Context {A R : Type}.
Implicit Types (limit per now : Z) (key : string) (store : gmap string (list Z)).
Implicit Types (scope_func : option (request → string)) (f : A → R).

(** The outcome of a call and the window it leaves depend on the window
    of its key only. *)
Lemma wrapped_agree limit per scope_func f req now args store1 store2 :
  let key := request_key scope_func req in
  store1 !! key = store2 !! key →
  fst (wrapped limit per scope_func f req now args store1)
  = fst (wrapped limit per scope_func f req now args store2)
  ∧ snd (wrapped limit per scope_func f req now args store1) !! key
    = snd (wrapped limit per scope_func f req now args store2) !! key.
Proof.
  intros key Heq. rewrite !wrapped_unfold. fold key.
  assert (window key store1 = window key store2) as -> by (unfold window; by rewrite Heq).
  case_bool_decide; simpl; by rewrite !lookup_insert_eq.
Qed.

Lemma wrapped_lookup_ne limit per scope_func f req now args store k :
  k ≠ request_key scope_func req →
  snd (wrapped limit per scope_func f req now args store) !! k = store !! k.
Proof.
  intros Hne. rewrite wrapped_unfold.
  case_bool_decide; simpl; by rewrite lookup_insert_ne.
Qed.

Lemma run_of_key_agree limit per scope_func f key (calls : list (call A)) :
  ∀ store1 store2,
    store1 !! key = store2 !! key →
    events_of_key key (fst (run limit per scope_func f calls store1))
    = fst (run limit per scope_func f (calls_of_key scope_func key calls) store2)
    ∧ snd (run limit per scope_func f calls store1) !! key
      = snd (run limit per scope_func f (calls_of_key scope_func key calls) store2) !! key.
Proof.
  unfold events_of_key, calls_of_key.
  induction calls as [|c cs IH]; intros store1 store2 Heq; [done|].
  rewrite filter_cons. simpl.
  destruct (decide (request_key scope_func (call_req c) = key)) as [Hk|Hk].
  - simpl.
    pose proof (wrapped_agree limit per scope_func f (call_req c) (call_time c)
                  (call_args c) store1 store2) as Hag.
    simpl in Hag. rewrite Hk in Hag. destruct (Hag Heq) as [Ho Hs].
    destruct (wrapped limit per scope_func f (call_req c) (call_time c) (call_args c) store1)
      as [o1 st1].
    destruct (wrapped limit per scope_func f (call_req c) (call_time c) (call_args c) store2)
      as [o2 st2].
    simpl in Ho, Hs. subst o2.
    destruct (IH st1 st2 Hs) as [Hev Hst].
    destruct (run limit per scope_func f cs st1) as [evs1 st1'].
    destruct (run limit per scope_func f _ st2) as [evs2 st2'].
    simpl in *. rewrite filter_cons. simpl.
    destruct (decide (request_key scope_func (call_req c) = key)); [|done].
    by rewrite Hev, Hk.
  - pose proof (wrapped_lookup_ne limit per scope_func f (call_req c) (call_time c)
                  (call_args c) store1 key (not_eq_sym Hk)) as Hother.
    destruct (wrapped limit per scope_func f (call_req c) (call_time c) (call_args c) store1)
      as [o1 st1].
    simpl in Hother.
    assert (st1 !! key = store2 !! key) as Heq' by (by rewrite Hother).
    destruct (IH st1 store2 Heq') as [Hev Hst].
    destruct (run limit per scope_func f cs st1) as [evs1 st1'].
    simpl in *. rewrite filter_cons. simpl.
    destruct (decide (request_key scope_func (call_req c) = key)); done.
Qed.

(** X1: keys do not interfere.  In a trace that mixes keys, what happens
    to [key] (its events, in order, and its final window) is what happens
    when only the calls of [key] are served. *)
Theorem X1_keys_do_not_interfere limit per scope_func f key (calls : list (call A)) :
  events_of_key key (fst (run limit per scope_func f calls ∅))
  = fst (run limit per scope_func f (calls_of_key scope_func key calls) ∅)
  ∧ window key (snd (run limit per scope_func f calls ∅))
    = window key (snd (run limit per scope_func f (calls_of_key scope_func key calls) ∅)).
Proof.
  destruct (run_of_key_agree limit per scope_func f key calls ∅ ∅ eq_refl) as [Hev Hst].
  split; [exact Hev|]. unfold window. by rewrite Hst.
Qed.

Lemma allowed_times_app key evs1 evs2 :
  allowed_times key (evs1 ++ evs2) = allowed_times key evs1 ++ allowed_times key evs2.
Proof. unfold allowed_times. by rewrite filter_app, fmap_app. Qed.

Lemma allowed_times_cons key e evs :
  allowed_times key (e :: evs)
  = (if decide (allowed_event key e) then [ev_time e] else []) ++ allowed_times key evs.
Proof.
  unfold allowed_times. rewrite filter_cons.
  by destruct (decide (allowed_event key e)).
Qed.

(** The window after one call against the Allowed timestamps so far. *)
Lemma wrapped_window_sublist limit per scope_func f req now args store (seen : list Z) k :
  window k store `sublist_of` seen →
  let r := wrapped limit per scope_func f req now args store in
  window k (snd r)
  `sublist_of` seen ++ allowed_times k
                         [{| ev_key := request_key scope_func req; ev_time := now;
                             ev_status := status_of (fst r) |}].
Proof.
  intros Hsub r. subst r. rewrite wrapped_unfold, allowed_times_cons.
  set (key := request_key scope_func req).
  destruct (decide (k = key)) as [->|Hne].
  - case_bool_decide; simpl; rewrite window_insert.
    + destruct (decide _) as [[_ Hst]|]; [discriminate Hst|].
      simpl. rewrite app_nil_r. etrans; [apply sublist_filter | exact Hsub].
    + destruct (decide _) as [_|Hn]; [|exfalso; apply Hn; by split].
      simpl. apply sublist_app; [|done].
      etrans; [apply sublist_filter | exact Hsub].
  - case_bool_decide; simpl; rewrite window_insert_ne by done;
      (destruct (decide _) as [[Hk _]|_]; [simpl in Hk; congruence|]);
      simpl; by rewrite app_nil_r.
Qed.

Lemma run_window_sublist limit per scope_func f (calls : list (call A)) k :
  ∀ store (seen : list Z),
    window k store `sublist_of` seen →
    window k (snd (run limit per scope_func f calls store))
    `sublist_of` seen ++ allowed_times k (fst (run limit per scope_func f calls store)).
Proof.
  induction calls as [|c cs IH]; intros store seen Hsub.
  - simpl. unfold allowed_times. simpl. by rewrite app_nil_r.
  - simpl.
    pose proof (wrapped_window_sublist limit per scope_func f (call_req c) (call_time c)
                  (call_args c) store seen k Hsub) as Hstep.
    simpl in Hstep.
    destruct (wrapped limit per scope_func f (call_req c) (call_time c) (call_args c) store)
      as [o st1].
    simpl in Hstep. specialize (IH st1 _ Hstep).
    destruct (run limit per scope_func f cs st1) as [evs st2]. simpl in *.
    rewrite <- app_assoc, <- allowed_times_app in IH. exact IH.
Qed.

(** X2: rejected attempts are never recorded.  Along any trace from the
    empty store, whatever the clock does, the stored window of a key is a
    sublist of the timestamps of the key's Allowed calls. *)
Theorem X2_window_holds_only_allowed_timestamps limit per scope_func f
    (calls : list (call A)) key :
  window key (snd (run limit per scope_func f calls ∅))
  `sublist_of` allowed_times key (fst (run limit per scope_func f calls ∅)).
Proof.
  apply (run_window_sublist limit per scope_func f calls key ∅ []).
  unfold window. by rewrite lookup_empty.
Qed.

Lemma run_window_length limit per scope_func f (calls : list (call A)) :
  ∀ store,
    (∀ k, Z.of_nat (length (window k store)) ≤ limit) →
    ∀ k, Z.of_nat (length (window k (snd (run limit per scope_func f calls store)))) ≤ limit.
Proof.
  induction calls as [|c cs IH]; intros store Hlen; [exact Hlen|].
  simpl.
  destruct (wrapped limit per scope_func f (call_req c) (call_time c) (call_args c) store)
    as [o st1] eqn:Hwr.
  assert (∀ k, Z.of_nat (length (window k st1)) ≤ limit) as Hlen1.
  { intros k. rewrite wrapped_unfold in Hwr.
    set (key := request_key scope_func (call_req c)) in *.
    pose proof (length_filter (keep per (call_time c)) (window key store)) as Hf.
    specialize (Hlen key) as Hkey.
    destruct (decide (k = key)) as [->|Hne].
    - case_bool_decide; injection Hwr as _ <-; rewrite window_insert.
      + lia.
      + rewrite length_app. simpl. lia.
    - case_bool_decide; injection Hwr as _ <-; rewrite window_insert_ne by done; apply Hlen. }
  specialize (IH st1 Hlen1).
  destruct (run limit per scope_func f cs st1) as [evs st2]. exact IH.
Qed.

(** X3: the store is bounded per key.  With a limit that is not negative,
    along any trace from the empty store and whatever the clock does, no
    stored window ever holds more than [limit] timestamps. *)
Theorem X3_window_never_longer_than_limit limit per scope_func f
    (calls : list (call A)) key :
  0 ≤ limit →
  Z.of_nat (length (window key (snd (run limit per scope_func f calls ∅)))) ≤ limit.
Proof.
  intros Hl. apply run_window_length.
  intros k. unfold window. rewrite lookup_empty. simpl. lia.
Qed.

Lemma run_dom limit per scope_func f (calls : list (call A)) :
  ∀ store,
    dom (snd (run limit per scope_func f calls store))
    = list_to_set (keys_of scope_func calls) ∪ dom store.
Proof.
  unfold keys_of.
  induction calls as [|c cs IH]; intros store.
  - simpl. by rewrite (left_id_L ∅ (∪)).
  - simpl.
    destruct (wrapped limit per scope_func f (call_req c) (call_time c) (call_args c) store)
      as [o st1] eqn:Hwr.
    specialize (IH st1).
    destruct (run limit per scope_func f cs st1) as [evs st2]. simpl in *.
    rewrite IH. rewrite wrapped_unfold in Hwr.
    case_bool_decide; injection Hwr as _ <-; rewrite dom_insert_L;
      rewrite (assoc_L (∪)); f_equal; apply (comm_L (∪)).
Qed.

(** X4: the store never forgets a key.  After a trace from the empty store
    the keys of the store are exactly the keys that called, rejected calls
    included; no entry is ever removed. *)
Theorem X4_store_keeps_every_key limit per scope_func f (calls : list (call A)) :
  dom (snd (run limit per scope_func f calls ∅))
  = list_to_set (keys_of scope_func calls)
  ∧ ∀ req now args store,
      dom (snd (wrapped limit per scope_func f req now args store))
      = {[ request_key scope_func req ]} ∪ dom store.
Proof.
  split.
  - by rewrite run_dom, dom_empty_L, (right_id_L ∅ (∪)).
  - intros. rewrite wrapped_unfold.
    case_bool_decide; simpl; by rewrite dom_insert_L.
Qed.

End RateLimitStore.

Section RateLimitEdges.

Import RateLimit.

Context {A R : Type}.
Implicit Types (limit per now : Z) (key : string) (store : gmap string (list Z)).
Implicit Types (scope_func : option (request → string)) (f : A → R).

(** X5: right after a check at time [now] with a positive window length,
    every timestamp in the stored window of the caller's key is less than
    [per] old, the one just appended included. *)
Theorem X5_window_fresh_after_check limit per scope_func f req now args store :
  0 < per →
  Forall (λ t, now - t < per)
    (window (request_key scope_func req)
       (snd (wrapped limit per scope_func f req now args store))).
Proof.
  intros Hper. rewrite wrapped_unfold.
  assert (Forall (λ t, now - t < per)
            (filter (keep per now) (window (request_key scope_func req) store))) as Hkept.
  { apply Forall_forall. intros t Ht. by apply list_elem_of_filter in Ht as [Ht _]. }
  case_bool_decide; simpl; rewrite window_insert; [exact Hkept|].
  apply Forall_app. split; [exact Hkept|]. constructor; [lia | constructor].
Qed.

Lemma filter_ext_in {T : Type} (P Q : T → Prop)
    `{∀ x, Decision (P x)} `{∀ x, Decision (Q x)} (l : list T) :
  (∀ x, x ∈ l → P x ↔ Q x) → filter P l = filter Q l.
Proof.
  induction l as [|x l IH]; intros Hiff; [reflexivity|].
  rewrite !filter_cons.
  assert (filter P l = filter Q l) as -> by (apply IH; intros y Hy; apply Hiff; by right).
  pose proof (Hiff x (list_elem_of_here x l)) as Hx.
  destruct (decide (P x)), (decide (Q x)); tauto.
Qed.

Lemma allowed_below_rejected limit (m n : nat) :
  limit ≤ Z.of_nat m → allowed_below limit m n = replicate n (Some Rejected).
Proof.
  unfold allowed_below. revert m. induction n as [|n IH]; intros m Hm; [reflexivity|].
  simpl. rewrite bool_decide_eq_false_2 by lia. f_equal. apply IH. lia.
Qed.

Lemma filter_all {T : Type} (P : T → Prop) `{∀ x, Decision (P x)} (l : list T) :
  (∀ x, x ∈ l → P x) → filter P l = l.
Proof.
  induction l as [|x l IH]; intros Hall; [reflexivity|].
  rewrite filter_cons, IH by (intros y Hy; apply Hall; by right).
  destruct (decide (P x)) as [|Hn]; [reflexivity|].
  exfalso. apply Hn, Hall. by left.
Qed.

Lemma filter_none {T : Type} (P : T → Prop) `{∀ x, Decision (P x)} (l : list T) :
  (∀ x, x ∈ l → ¬ P x) → filter P l = [].
Proof.
  induction l as [|x l IH]; intros Hnone; [reflexivity|].
  rewrite filter_cons, IH by (intros y Hy; apply Hnone; by right).
  destruct (decide (P x)) as [Hp|]; [|reflexivity].
  exfalso. by apply (Hnone x (list_elem_of_here x l)).
Qed.

(** A burst inside one window length, from a window whose timestamps are
    either expired at [a] or not earlier than [a]. *)
Lemma run_burst limit per scope_func f req args a (ts : list Z) :
  ∀ store,
    (∀ x, x ∈ window (request_key scope_func req) store → per ≤ a - x ∨ a ≤ x) →
    (∀ t, t ∈ ts → a ≤ t ∧ t < a + per) →
    ev_status <$> fst (run limit per scope_func f (calls_at req args ts) store)
    = allowed_below limit
        (length (filter (λ x, a ≤ x) (window (request_key scope_func req) store)))
        (length ts).
Proof.
  set (key := request_key scope_func req).
  induction ts as [|t ts IH]; intros store Hwin Hts; [reflexivity|].
  assert (a ≤ t ∧ t < a + per) as [Hlo Hhi] by (apply Hts; by left).
  assert (∀ t', t' ∈ ts → a ≤ t' ∧ t' < a + per) as Hts'
    by (intros t' Ht'; apply Hts; by right).
  assert (filter (keep per t) (window key store) = filter (λ x, a ≤ x) (window key store))
    as Hfilter.
  { apply filter_ext_in. intros x Hx. unfold keep.
    destruct (Hwin x Hx); lia. }
  set (live := filter (λ x, a ≤ x) (window key store)) in *.
  assert (∀ x, x ∈ live → a ≤ x) as Hlive.
  { intros x Hx. by apply list_elem_of_filter in Hx as [Hx _]. }
  change (calls_at req args (t :: ts))
    with ({| call_req := req; call_time := t; call_args := args |} :: calls_at req args ts).
  cbn [run call_req call_time call_args]. rewrite wrapped_unfold. fold key.
  rewrite Hfilter.
  case_bool_decide as Hfull.
  - (* rejected: the live part of the window is all that stays *)
    specialize (IH (<[key := live]> store)).
    rewrite window_insert in IH.
    rewrite (filter_all (λ x, a ≤ x) live Hlive) in IH.
    specialize (IH (λ x Hx, or_intror (Hlive x Hx)) Hts').
    destruct (run limit per scope_func f (calls_at req args ts) (<[key := live]> store))
      as [evs st].
    simpl. rewrite allowed_below_rejected by lia. simpl. f_equal.
    rewrite <- (allowed_below_rejected limit (length live)) by lia. exact IH.
  - (* allowed: one more live timestamp *)
    specialize (IH (<[key := live ++ [t]]> store)).
    rewrite window_insert in IH.
    assert (∀ x, x ∈ live ++ [t] → a ≤ x) as Hlive'.
    { intros x Hx. apply elem_of_app in Hx as [Hx|Hx]; [by apply Hlive|].
      apply list_elem_of_singleton in Hx. lia. }
    rewrite (filter_all (λ x, a ≤ x) (live ++ [t]) Hlive') in IH.
    specialize (IH (λ x Hx, or_intror (Hlive' x Hx)) Hts').
    destruct (run limit per scope_func f (calls_at req args ts) (<[key := live ++ [t]]> store))
      as [evs st].
    rewrite length_app in IH. simpl in IH.
    replace (length live + 1)%nat with (S (length live)) in IH by lia.
    simpl. unfold allowed_below. simpl.
    rewrite bool_decide_eq_true_2 by lia. f_equal. exact IH.
Qed.

(** X6: recovery after the window has expired.  When every stored
    timestamp of a key is at least [per] old at time [a], and a burst of
    calls of that key arrives with all its timestamps in [a, a + per), the
    first [limit] calls of the burst are Allowed and all later ones are
    Rejected. *)
Theorem X6_expired_window_admits_limit_calls limit per scope_func f req args a
    (ts : list Z) store :
  (∀ x, x ∈ window (request_key scope_func req) store → per ≤ a - x) →
  (∀ t, t ∈ ts → a ≤ t ∧ t < a + per) →
  ev_status <$> fst (run limit per scope_func f (calls_at req args ts) store)
  = allowed_below limit 0 (length ts).
Proof.
  intros Hexp Hts.
  rewrite (run_burst limit per scope_func f req args a ts store
             (λ x Hx, or_introl (Hexp x Hx)) Hts).
  destruct ts as [|t ts]; [reflexivity|].
  assert (0 < per) as Hper by (specialize (Hts t (list_elem_of_here t ts)); lia).
  rewrite (filter_none (λ x, a ≤ x)); [reflexivity|].
  intros x Hx. specialize (Hexp x Hx). lia.
Qed.

End RateLimitEdges.

Section RateLimitSharing.

Import RateLimit.

Context {A1 R1 A2 R2 : Type}.

(** X7: the store is shared by every decorated view.  The key holds the
    client address and the scope, not the view or its policy, so a call
    Allowed through one view uses up the quota of another: a view limited
    to one call sees that timestamp, while it is younger than its own
    window length, and rejects the same client. *)
Theorem X7_views_share_one_window
    (limit1 per1 limit2 per2 : Z) (scope_func : option (request → string))
    (f1 : A1 → R1) (f2 : A2 → R2) (req : request) (now1 now2 : Z)
    (args1 : A1) (args2 : A2) (store : gmap string (list Z)) :
  let r1 := wrapped limit1 per1 scope_func f1 req now1 args1 store in
  status_of (fst r1) = Some Allowed →
  limit2 ≤ 1 →
  now2 - now1 < per2 →
  status_of (fst (wrapped limit2 per2 scope_func f2 req now2 args2 (snd r1)))
  = Some Rejected.
Proof.
  intros r1. subst r1. rewrite (wrapped_unfold limit1).
  case_bool_decide; simpl; [discriminate|]. intros _ Hlimit Hyoung.
  rewrite wrapped_unfold, window_insert, filter_app.
  rewrite (filter_cons _ now1), filter_nil.
  destruct (decide (keep per2 now2 now1)) as [_|Hn]; [|by destruct Hn].
  rewrite bool_decide_eq_true_2; [reflexivity|].
  rewrite length_app. simpl. lia.
Qed.

End RateLimitSharing.

Section RateLimitDegenerate.

Import RateLimit.

Context {A R : Type}.
Implicit Types (limit per now : Z) (key : string) (store : gmap string (list Z)).
Implicit Types (scope_func : option (request → string)) (f : A → R).

Lemma run_no_window limit per scope_func f (calls : list (call A)) :
  per ≤ 0 → 1 ≤ limit →
  ∀ store T,
    Sorted Z.le (call_time <$> calls) →
    HdRel Z.le T (call_time <$> calls) →
    (∀ k t, t ∈ window k store → t ≤ T) →
    Forall (λ e, ev_status e = Some Allowed) (fst (run limit per scope_func f calls store)).
Proof.
  intros Hper Hlimit.
  induction calls as [|c cs IH]; intros store T Hsorted Hhd Hold; [constructor|].
  rewrite fmap_cons in Hsorted, Hhd.
  apply Sorted_inv in Hsorted as [Hsorted Hhd'].
  apply HdRel_inv in Hhd.
  simpl. rewrite wrapped_unfold.
  set (key := request_key scope_func (call_req c)).
  assert (filter (keep per (call_time c)) (window key store) = []) as ->.
  { apply filter_none. intros t Ht. specialize (Hold key t Ht). unfold keep. lia. }
  rewrite bool_decide_eq_false_2 by (simpl; lia).
  specialize (IH (<[key := [] ++ [call_time c]]> store) (call_time c) Hsorted Hhd').
  destruct (run limit per scope_func f cs (<[key := [] ++ [call_time c]]> store))
    as [evs st].
  simpl in *. constructor; [reflexivity|]. apply IH.
  intros k t Ht. destruct (decide (k = key)) as [->|Hne].
  - rewrite window_insert in Ht. apply list_elem_of_singleton in Ht. lia.
  - rewrite window_insert_ne in Ht by done. specialize (Hold k t Ht). lia.
Qed.

(** X8: a window length that is not positive switches the limiter off.
    With [per <= 0], a limit of at least one and a clock that does not go
    back, every call from the empty store is Allowed, however many there
    are. *)
Theorem X8_nonpositive_window_never_rejects limit per scope_func f
    (calls : list (call A)) :
  per ≤ 0 →
  1 ≤ limit →
  Sorted Z.le (call_time <$> calls) →
  Forall (λ e, ev_status e = Some Allowed) (fst (run limit per scope_func f calls ∅)).
Proof.
  intros Hper Hlimit Hsorted.
  assert (∃ T, HdRel Z.le T (call_time <$> calls)) as [T Hhd].
  { destruct calls as [|c cs]; [exists 0; constructor|].
    exists (call_time c). rewrite fmap_cons. by constructor. }
  apply (run_no_window limit per scope_func f calls Hper Hlimit ∅ T Hsorted Hhd).
  intros k t Ht. unfold window in Ht. rewrite lookup_empty in Ht.
  by apply elem_of_nil in Ht.
Qed.

End RateLimitDegenerate.

Section RateLimitKeys.

Import RateLimit.

Lemma append_nil_l (s : string) : "" +:+ s = s.
Proof. reflexivity. Qed.

Lemma append_cons_l (c : Ascii.ascii) (a s : string) :
  String c a +:+ s = String c (a +:+ s).
Proof. reflexivity. Qed.

(** Splitting at the first [":"] is unambiguous for prefixes without one. *)
Lemma append_colon_inj (a1 a2 s1 s2 : string) :
  colon_free a1 → colon_free a2 →
  a1 +:+ ":" +:+ s1 = a2 +:+ ":" +:+ s2 →
  a1 = a2 ∧ s1 = s2.
Proof.
  revert a2. induction a1 as [|c1 a1 IH]; intros [|c2 a2] Hf1 Hf2 Heq;
    rewrite ?append_cons_l, ?append_nil_l in Heq; simpl in *.
  - by simplify_eq.
  - destruct Hf2 as [Hne _]. by simplify_eq.
  - destruct Hf1 as [Hne _]. by simplify_eq.
  - destruct Hf1 as [_ Hf1], Hf2 as [_ Hf2]. simplify_eq.
    destruct (IH a2 Hf1 Hf2) as [-> ->]; done.
Qed.

Lemma colon_free_not_scoped (a1 a2 s : string) :
  colon_free a1 → a1 ≠ a2 +:+ ":" +:+ s.
Proof.
  revert a2. induction a1 as [|c1 a1 IH]; intros [|c2 a2] Hf Heq;
    rewrite ?append_cons_l, ?append_nil_l in Heq; simpl in *.
  - discriminate Heq.
  - discriminate Heq.
  - destruct Hf as [Hne _]. by simplify_eq.
  - destruct Hf as [_ Hf]. simplify_eq. by apply (IH a2 Hf).
Qed.

(** X9: for client addresses that contain no [":"], the key tells the
    client and the scope apart: two scoped keys are equal only for the same
    address and the same scope value, and a scoped key never equals an
    unscoped one. *)
Theorem X9_keys_of_colon_free_addresses_are_distinct
    (sf1 sf2 : request → string) (req1 req2 : request) :
  colon_free (remote_addr req1) →
  colon_free (remote_addr req2) →
  (request_key (Some sf1) req1 = request_key (Some sf2) req2 →
   remote_addr req1 = remote_addr req2 ∧ sf1 req1 = sf2 req2)
  ∧ request_key None req1 ≠ request_key (Some sf2) req2
  ∧ (request_key None req1 = request_key None req2 → remote_addr req1 = remote_addr req2).
Proof.
  intros Hf1 Hf2. unfold request_key. split; [|split].
  - by apply append_colon_inj.
  - by apply colon_free_not_scoped.
  - done.
Qed.

End RateLimitKeys.

(** * Further properties of the task handlers *)

Section LogFacts.

Import Celery.

Context {W : Type}.

Lemma kl_ret {A : Type} (a : A) : keeps_log (ret a : M W A).
Proof. by intros s. Qed.

Lemma kl_call_world {A : Type} (op : W → result A * W) : keeps_log (call_world op).
Proof. intros s. unfold call_world. by destruct (op (world s)). Qed.

Lemma kl_bind {A B : Type} (c : M W A) (k : A → M W B) :
  keeps_log c → (∀ a, keeps_log (k a)) → keeps_log (bind c k).
Proof.
  intros Hc Hk s. unfold bind. specialize (Hc s).
  destruct (c s) as [[a|e] s1]; simpl in *; [|exact Hc].
  by rewrite Hk.
Qed.

Lemma kl_for_each {A : Type} (xs : list A) (body : A → M W unit) :
  (∀ x, keeps_log (body x)) → keeps_log (for_each xs body).
Proof.
  intros Hb. induction xs as [|x xs IH]; simpl; [apply kl_ret|].
  apply kl_bind; [apply Hb | intros _; apply IH].
Qed.

Lemma kl_for_collect {A B : Type} (xs : list A) (body : A → M W (option B)) :
  (∀ x, keeps_log (body x)) → ∀ acc, keeps_log (for_collect xs body acc).
Proof.
  intros Hb. induction xs as [|x xs IH]; intros acc; simpl; [apply kl_ret|].
  apply kl_bind; [apply Hb | intros o; apply IH].
Qed.

End LogFacts.

Ltac kl_step :=
  first [ apply kl_ret | apply kl_call_world
        | apply kl_bind; [|intros ?]
        | apply kl_for_each; intros ?
        | apply kl_for_collect; intros ?
        | match goal with
          | |- Celery.keeps_log (match ?x with _ => _ end) => destruct x
          end ].

Section HandlerLog.

Import Celery.

Context {W : Type} (E : Env W).

Lemma handler_imports_keeps_log h : keeps_log (handler_imports E h).
Proof.
  destruct h; simpl; unfold update_point_caches_imports,
    generate_daily_statistics_imports, send_inactivity_notifications_imports;
    repeat kl_step.
Qed.

Lemma handler_try_keeps_log h : keeps_log (handler_try E h).
Proof.
  destruct h; simpl; unfold update_point_caches_try, generate_daily_statistics_try,
    send_inactivity_notifications_try, inactive_teacher_entry; repeat kl_step.
Qed.

(** X10: what a handler logs.  A run appends exactly one entry, an ERROR
    on the root logger that ends with [str(e)], when its [try] block raised
    an [Exception] and the failure record is returned; in every other run,
    a successful one or one that lets an exception through, the log is left
    as it was. *)
Theorem X10_handler_logs_once_on_failure_only (CELERY_AVAILABLE : bool)
    (h : handler_name) (s : state W) :
  let r := handler E CELERY_AVAILABLE h tt s in
  match fst r with
  | Raise _ => log (snd r) = log s
  | Ok record =>
      (record !! "success" = Some (VBool false)
       ∧ ∃ msg e, record = failure_record e
                  ∧ log (snd r)
                    = log s ++ [{| log_logger := RootLogger; log_level := ERROR;
                                   log_message := msg +:+ exn_str e |}])
      ∨ (record !! "success" ≠ Some (VBool false) ∧ log (snd r) = log s)
  end.
Proof.
  intros r. subst r. rewrite handler_unfold. unfold bind.
  pose proof (handler_imports_keeps_log h s) as Himp.
  destruct (handler_imports E h s) as [[[]|e] s1]; simpl in *; [|exact Himp].
  unfold try_except_Exception.
  pose proof (handler_try_keeps_log h s1) as Htry.
  destruct (handler_try E h s1) as [[record|e] s2] eqn:Hrun; simpl in *.
  - right. split; [|congruence].
    destruct (handler_try_record E h s1 record s2 Hrun) as [Hs _].
    rewrite Hs. by destruct h.
  - destruct (exn_isinstance_Exception e); simpl; [|congruence].
    destruct (handler_except_unfold CELERY_AVAILABLE h e s2) as [msg ->]. simpl.
    left. split; [reflexivity|]. exists msg, e. split; [reflexivity|]. congruence.
Qed.

(** X11: [CELERY_AVAILABLE] changes the wording of one log line only.
    Whatever its value, a handler returns the same result, leaves the world
    in the same state and logs on the same logger at the same level; for
    the two handlers other than [update_point_caches] the whole log is the
    same. *)
Theorem X11_result_independent_of_celery_available (h : handler_name) (s : state W) :
  let r1 := handler E true h tt s in
  let r2 := handler E false h tt s in
  fst r1 = fst r2
  ∧ world (snd r1) = world (snd r2)
  ∧ (λ e, (log_logger e, log_level e)) <$> log (snd r1)
    = (λ e, (log_logger e, log_level e)) <$> log (snd r2)
  ∧ (h ≠ Update_point_caches → r1 = r2).
Proof.
  intros r1 r2. subst r1 r2.
  destruct h; [|by repeat split..].
  rewrite !(handler_unfold E _ Update_point_caches). unfold bind.
  destruct (handler_imports E Update_point_caches s) as [[[]|e] s1]; simpl;
    [|repeat split; try done; intros Hne; by destruct Hne].
  unfold try_except_Exception.
  destruct (update_point_caches_try E s1) as [[record|e] s2]; simpl;
    [repeat split; try done; intros Hne; by destruct Hne|].
  destruct (exn_isinstance_Exception e); simpl;
    [|repeat split; try done; intros Hne; by destruct Hne].
  split; [done|]. split; [done|]. split; [by rewrite !fmap_app|].
  intros Hne; by destruct Hne.
Qed.

End HandlerLog.

Section MemoryDatabase.

Import Celery.

Context (db : database).

Lemma or_0_Some_id (z : Z) : or_0 (Some z) = z.
Proof. simpl. case_bool_decide; congruence. Qed.

Lemma or_0_sql_sum (rows : list transaction_row) : or_0 (sql_sum rows) = sum_points rows.
Proof. destruct rows as [|r rows]; [reflexivity|]. apply or_0_Some_id. Qed.

Lemma query_students (w : list db_write) :
  User_query_filter_by_role_all (memory_env db) "student" w = (Ok (db_students db), w).
Proof. reflexivity. Qed.

Lemma query_teachers (w : list db_write) :
  User_query_filter_by_role_all (memory_env db) "teacher" w = (Ok (db_teachers db), w).
Proof. reflexivity. Qed.

(** A loop whose every iteration issues one write. *)
Lemma for_each_writes (body : User → M (list db_write) unit) (wr : User → db_write)
    (us : list User) :
  (∀ u, u ∈ us → ∀ w lg, body u {| world := w; log := lg |}
                          = (Ok tt, {| world := w ++ [wr u]; log := lg |})) →
  ∀ w lg, for_each us body {| world := w; log := lg |}
          = (Ok tt, {| world := w ++ (wr <$> us); log := lg |}).
Proof.
  induction us as [|u us IH]; intros Hbody w lg.
  - simpl. unfold ret. by rewrite app_nil_r.
  - simpl. unfold bind. rewrite (Hbody u) by (by left).
    rewrite IH by (intros u' Hu'; apply Hbody; by right).
    by rewrite <- app_assoc.
Qed.

(** A loop that raises at [u], after the writes of the iterations before. *)
Lemma for_each_raises (body : User → M (list db_write) unit) (wr : User → db_write)
    (pre post : list User) (u : User) (e : exn) :
  (∀ u', u' ∈ pre → ∀ w lg, body u' {| world := w; log := lg |}
                             = (Ok tt, {| world := w ++ [wr u']; log := lg |})) →
  (∀ w lg, body u {| world := w; log := lg |} = (Raise e, {| world := w; log := lg |})) →
  ∀ w lg, for_each (pre ++ u :: post) body {| world := w; log := lg |}
          = (Raise e, {| world := w ++ (wr <$> pre); log := lg |}).
Proof.
  intros Hpre Hu. induction pre as [|u' pre IH]; intros w lg.
  - simpl. unfold bind. rewrite Hu. by rewrite app_nil_r.
  - simpl. unfold bind. rewrite (Hpre u') by (by left).
    rewrite IH by (intros u'' Hu''; apply Hpre; by right).
    by rewrite <- app_assoc.
Qed.

Lemma for_each_raises_at (body : User → M (list db_write) unit) (wr : User → db_write)
    (us pre post : list User) (u : User) (e : exn) :
  us = pre ++ u :: post →
  (∀ u', u' ∈ pre → ∀ w lg, body u' {| world := w; log := lg |}
                             = (Ok tt, {| world := w ++ [wr u']; log := lg |})) →
  (∀ w lg, body u {| world := w; log := lg |} = (Raise e, {| world := w; log := lg |})) →
  ∀ w lg, for_each us body {| world := w; log := lg |}
          = (Raise e, {| world := w ++ (wr <$> pre); log := lg |}).
Proof. intros ->. apply for_each_raises. Qed.

Lemma fault_split (us : list User) :
  (∀ u, u ∈ us → db_sum_fault db (id u) = None)
  ∨ ∃ pre u post e, us = pre ++ u :: post
                    ∧ (∀ u', u' ∈ pre → db_sum_fault db (id u') = None)
                    ∧ db_sum_fault db (id u) = Some e.
Proof.
  induction us as [|u us IH].
  - left. intros u Hu. by apply elem_of_nil in Hu.
  - destruct (db_sum_fault db (id u)) as [e|] eqn:Hf.
    + right. exists [], u, us, e. split; [reflexivity|]. split; [|exact Hf].
      intros u' Hu'. by apply elem_of_nil in Hu'.
    + destruct IH as [Hall|(pre & u0 & post & e & -> & Hpre & Hu0)].
      * left. intros u' Hu'. apply elem_of_cons in Hu' as [->|Hu']; [exact Hf | by apply Hall].
      * right. exists (u :: pre), u0, post, e. split; [reflexivity|]. split; [|exact Hu0].
        intros u' Hu'. apply elem_of_cons in Hu' as [->|Hu']; [exact Hf | by apply Hpre].
Qed.

(** One iteration of each loop of [update_point_caches]. *)
Lemma student_iteration (u : User) (w : list db_write) (lg : list log_entry) :
  (let* total := call_world (sum_points_filter_student_id (memory_env db) (id u)) in
   call_world (set_total_points (memory_env db) u (or_0 total)))
    {| world := w; log := lg |}
  = match db_sum_fault db (id u) with
    | Some e => (Raise e, {| world := w; log := lg |})
    | None => (Ok tt, {| world := w ++ total_points_writes db [u]; log := lg |})
    end.
Proof.
  unfold bind, call_world. simpl.
  destruct (db_sum_fault db (id u)); [reflexivity|].
  simpl. by rewrite or_0_sql_sum.
Qed.

Lemma teacher_iteration (u : User) (w : list db_write) (lg : list log_entry) :
  (let* total := call_world (sum_points_filter_teacher_id (memory_env db) (id u)) in
   call_world (set_points_given (memory_env db) u (or_0 total)))
    {| world := w; log := lg |}
  = match db_sum_fault db (id u) with
    | Some e => (Raise e, {| world := w; log := lg |})
    | None => (Ok tt, {| world := w ++ points_given_writes db [u]; log := lg |})
    end.
Proof.
  unfold bind, call_world. simpl.
  destruct (db_sum_fault db (id u)); [reflexivity|].
  simpl. by rewrite or_0_sql_sum.
Qed.

Lemma no_commit_in_writes (students teachers : list User) :
  Commit ∉ total_points_writes db students ++ points_given_writes db teachers.
Proof.
  unfold total_points_writes, points_given_writes.
  intros Hin. apply elem_of_app in Hin as [Hin|Hin];
    apply list_elem_of_fmap in Hin as (u & Hu & _); discriminate Hu.
Qed.

(** X12: [update_point_caches] over a database whose sum queries succeed.
    It writes to every student the sum of the points of the student's
    transactions (0 when there are none), then to every teacher the sum of
    the points the teacher gave, in table order, then commits once; it
    returns the success record and logs nothing. *)
Theorem X12_update_point_caches_writes_sums_then_commits
    (CELERY_AVAILABLE : bool) (s : state (list db_write)) :
  (∀ u, u ∈ db_students db → db_sum_fault db (id u) = None) →
  (∀ u, u ∈ db_teachers db → db_sum_fault db (id u) = None) →
  update_point_caches (memory_env db) CELERY_AVAILABLE tt s
  = (Ok {[ "success" := VBool true; "timestamp" := VStr (db_isoformat db (db_now db)) ]},
     {| world := world s ++ total_points_writes db (db_students db)
                 ++ points_given_writes db (db_teachers db) ++ [Commit];
        log := log s |}).
Proof.
  intros Hs Ht. destruct s as [w lg].
  unfold update_point_caches, update_point_caches_imports, update_point_caches_try,
    try_except_Exception.
  unfold bind, call_world, ret. simpl.
  rewrite (for_each_writes _
             (λ u, SetTotalPoints (id u)
                     (sum_points (filter (λ r, row_student_id r = id u) (db_transactions db))))
             (db_students db)).
  2:{ intros u Hu w' lg'. pose proof (student_iteration u w' lg') as Hit.
      rewrite (Hs u Hu) in Hit. exact Hit. }
  simpl.
  rewrite (for_each_writes _
             (λ u, SetPointsGiven (id u)
                     (sum_points (filter (λ r, row_teacher_id r = id u) (db_transactions db))))
             (db_teachers db)).
  2:{ intros u Hu w' lg'. pose proof (teacher_iteration u w' lg') as Hit.
      rewrite (Ht u Hu) in Hit. exact Hit. }
  simpl. by rewrite <- !app_assoc.
Qed.

(** X13: no commit after a failed query.  When the sum query of some
    student or teacher raises, [update_point_caches] stops there: the
    writes issued are a prefix of the writes of a full run, [Commit] is
    not among them (and nothing undoes them), and the handler returns the
    failure record, or lets the exception through when it is not an
    [Exception]. *)
Theorem X13_update_point_caches_failure_never_commits
    (CELERY_AVAILABLE : bool) (s : state (list db_write)) :
  (∃ u, (u ∈ db_students db ∨ u ∈ db_teachers db) ∧ is_Some (db_sum_fault db (id u))) →
  let r := update_point_caches (memory_env db) CELERY_AVAILABLE tt s in
  ∃ ws, world (snd r) = world s ++ ws
        ∧ ws `prefix_of` (total_points_writes db (db_students db)
                          ++ points_given_writes db (db_teachers db))
        ∧ (Commit ∉ ws)
        ∧ match fst r with
          | Ok record => ∃ e, record = failure_record e ∧ exn_isinstance_Exception e = true
          | Raise e => exn_isinstance_Exception e = false
          end.
Proof.
  intros (u & Hu & Hfault) r. subst r. destruct s as [w lg].
  assert (∀ ws, ws `prefix_of` (total_points_writes db (db_students db)
                                ++ points_given_writes db (db_teachers db)) →
                Commit ∉ ws) as Hnocommit.
  { intros ws [rest Hrest] Hin.
    apply (no_commit_in_writes (db_students db) (db_teachers db)).
    rewrite Hrest. apply elem_of_app. by left. }
  unfold update_point_caches, update_point_caches_imports, update_point_caches_try,
    try_except_Exception.
  unfold bind, call_world, ret. simpl.
  destruct (fault_split (db_students db))
    as [Hs|(pre & u0 & post & e & Hsplit & Hpre & Hu0)].
  - (* the students are written, a teacher's query raises *)
    rewrite (for_each_writes _
               (λ u, SetTotalPoints (id u)
                       (sum_points (filter (λ r, row_student_id r = id u)
                                      (db_transactions db))))
               (db_students db)).
    2:{ intros u' Hu' w' lg'. pose proof (student_iteration u' w' lg') as Hit.
        rewrite (Hs u' Hu') in Hit. exact Hit. }
    simpl.
    destruct (fault_split (db_teachers db))
      as [Ht|(pre & u0 & post & e & Hsplit & Hpre & Hu0)].
    { exfalso. destruct Hfault as [e He].
      destruct Hu as [Hu|Hu]; [rewrite (Hs u Hu) in He | rewrite (Ht u Hu) in He];
        discriminate He. }
    rewrite (for_each_raises_at _
               (λ u, SetPointsGiven (id u)
                       (sum_points (filter (λ r, row_teacher_id r = id u)
                                      (db_transactions db))))
               (db_teachers db) pre post u0 e Hsplit).
    2:{ intros u' Hu' w' lg'. pose proof (teacher_iteration u' w' lg') as Hit.
        rewrite (Hpre u' Hu') in Hit. exact Hit. }
    2:{ intros w' lg'. pose proof (teacher_iteration u0 w' lg') as Hit.
        rewrite Hu0 in Hit. exact Hit. }
    assert ((total_points_writes db (db_students db) ++ points_given_writes db pre)
              `prefix_of` (total_points_writes db (db_students db)
                           ++ points_given_writes db (db_teachers db))) as Hprefix.
    { apply prefix_app. rewrite Hsplit. unfold points_given_writes.
      rewrite fmap_app. by apply prefix_app_r. }
    exists (total_points_writes db (db_students db) ++ points_given_writes db pre).
    destruct (exn_isinstance_Exception e) eqn:Hcls; simpl.
    + destruct CELERY_AVAILABLE; simpl;
        (split; [by rewrite <- app_assoc|]; split; [exact Hprefix|];
         split; [by apply Hnocommit|]; by exists e).
    + split; [by rewrite <- app_assoc|]. split; [exact Hprefix|].
      split; [by apply Hnocommit | exact Hcls].
  - (* a student's query raises *)
    rewrite (for_each_raises_at _
               (λ u, SetTotalPoints (id u)
                       (sum_points (filter (λ r, row_student_id r = id u)
                                      (db_transactions db))))
               (db_students db) pre post u0 e Hsplit).
    2:{ intros u' Hu' w' lg'. pose proof (student_iteration u' w' lg') as Hit.
        rewrite (Hpre u' Hu') in Hit. exact Hit. }
    2:{ intros w' lg'. pose proof (student_iteration u0 w' lg') as Hit.
        rewrite Hu0 in Hit. exact Hit. }
    assert (total_points_writes db pre
              `prefix_of` (total_points_writes db (db_students db)
                           ++ points_given_writes db (db_teachers db))) as Hprefix.
    { rewrite Hsplit. unfold total_points_writes. rewrite fmap_app, <- app_assoc.
      by apply prefix_app_r. }
    exists (total_points_writes db pre).
    destruct (exn_isinstance_Exception e) eqn:Hcls; simpl.
    + destruct CELERY_AVAILABLE; simpl;
        (split; [reflexivity|]; split; [exact Hprefix|];
         split; [by apply Hnocommit|]; by exists e).
    + split; [reflexivity|]. split; [exact Hprefix|].
      split; [by apply Hnocommit | exact Hcls].
Qed.

End MemoryDatabase.

Section MemoryQueries.

Import Celery.

Context (db : database).

(** X14: [generate_daily_statistics] over a database.  The four figures
    are taken over the transactions created in the 24 hours that end at the
    clock reading, the start included and the end excluded: their number,
    the sum of their points (0 when there are none), and the numbers of
    distinct teachers and students among them.  The handler writes nothing
    and logs nothing. *)
Theorem X14_generate_daily_statistics_counts_last_day (s : state (list db_write)) :
  let since := db_now db - timedelta_days 1 in
  let rows := filter (created_between since (db_now db)) (db_transactions db) in
  generate_daily_statistics (memory_env db) tt s
  = (Ok {[ "timestamp" := VStr (db_isoformat db (db_now db));
           "date" := VStr (db_date_isoformat db since);
           "transactions_count" := VInt (Z.of_nat (length rows));
           "total_points" := VInt (sum_points rows);
           "active_teachers" :=
             VInt (Z.of_nat (length (remove_dups (row_teacher_id <$> rows))));
           "active_students" :=
             VInt (Z.of_nat (length (remove_dups (row_student_id <$> rows)))) ]},
     s).
Proof.
  intros since rows. destruct s as [w lg].
  unfold generate_daily_statistics, generate_daily_statistics_imports,
    generate_daily_statistics_try, try_except_Exception.
  unfold bind, call_world, ret. simpl. fold since. fold rows.
  rewrite or_0_sql_sum.
  unfold sql_count_distinct.
  assert (∀ z : Z, (if bool_decide (z = 0) then 0 else z) = z) as Hor
    by (intros z; case_bool_decide; congruence).
  by rewrite !Hor.
Qed.

(** The greatest [created_at] of a teacher is below a threshold exactly
    when all the teacher's transactions are. *)
Lemma last_created_at_below (i threshold : Z) (rows : list transaction_row) :
  match last_created_at i rows with
  | Some m => m < threshold
  | None => True
  end
  ↔ ∀ r, r ∈ rows → row_teacher_id r = i → row_created_at r < threshold.
Proof.
  induction rows as [|r rows IH]; simpl.
  - split; [|done]. intros _ r Hr. by apply elem_of_nil in Hr.
  - case_bool_decide as Hr.
    + destruct (last_created_at i rows) as [m|]; split.
      * intros Hmax r' Hr' Hi. apply elem_of_cons in Hr' as [->|Hr']; [lia|].
        apply (proj1 IH); [lia | done | done].
      * intros Hall.
        assert (m < threshold)
          by (apply IH; intros r' Hr' Hi; apply Hall; [by right | done]).
        assert (row_created_at r < threshold) by (apply Hall; [by left | done]).
        lia.
      * intros Hlt r' Hr' Hi. apply elem_of_cons in Hr' as [->|Hr']; [lia|].
        by apply (proj1 IH).
      * intros Hall. apply Hall; [by left | done].
    + rewrite IH. split.
      * intros Hall r' Hr' Hi. apply elem_of_cons in Hr' as [->|Hr']; [done|].
        by apply Hall.
      * intros Hall r' Hr' Hi. apply Hall; [by right | done].
Qed.

Lemma last_created_at_None (i : Z) (rows : list transaction_row) :
  last_created_at i rows = None ↔ ∀ r, r ∈ rows → row_teacher_id r ≠ i.
Proof.
  induction rows as [|r rows IH]; simpl.
  - split; [|done]. intros _ r Hr. by apply elem_of_nil in Hr.
  - case_bool_decide as Hr.
    + split; [discriminate|]. intros Hall. destruct (Hall r); [by left | done].
    + rewrite IH. split.
      * intros Hall r' Hr'. apply elem_of_cons in Hr' as [->|Hr']; [done | by apply Hall].
      * intros Hall r' Hr'. apply Hall. by right.
Qed.

(** The loop of [send_inactivity_notifications] over the database. *)
Lemma for_collect_inactive (threshold : Z) (teachers : list User) :
  ∀ acc w lg,
    for_collect teachers (inactive_teacher_entry (memory_env db) threshold) acc
      {| world := w; log := lg |}
    = (Ok (acc ++ (inactive_entry db
                     <$> filter (no_transaction_since db threshold) teachers)),
       {| world := w; log := lg |}).
Proof.
  induction teachers as [|t ts IH]; intros acc w lg.
  - simpl. unfold ret. by rewrite app_nil_r.
  - simpl. unfold bind at 1.
    assert (inactive_teacher_entry (memory_env db) threshold t {| world := w; log := lg |}
            = (Ok (if decide (no_transaction_since db threshold t)
                   then Some (inactive_entry db t) else None),
               {| world := w; log := lg |})) as ->.
    { unfold inactive_teacher_entry, bind, call_world, ret, inactive_entry. simpl.
      pose proof (last_created_at_below (id t) threshold (db_transactions db)) as Hbelow.
      destruct (last_created_at (id t) (db_transactions db)) as [m|]; simpl.
      - case_bool_decide as Hm.
        + rewrite decide_True by exact (proj1 Hbelow Hm). reflexivity.
        + rewrite decide_False; [reflexivity|]. intros Hno. exact (Hm (proj2 Hbelow Hno)).
      - rewrite decide_True by exact (proj1 Hbelow I). reflexivity. }
    rewrite IH, filter_cons.
    destruct (decide (no_transaction_since db threshold t)); [|reflexivity].
    by rewrite fmap_cons, <- app_assoc.
Qed.

(** X15: [send_inactivity_notifications] over a database.  It lists, in
    table order, exactly the teachers none of whose transactions was
    created in the seven days before the clock reading (a transaction
    exactly seven days old counts as activity); teachers without any
    transaction are listed with [last_activity = None], the others with
    the date of their latest transaction.  The count is the length of the
    list.  Nothing is written, sent or logged. *)
Theorem X15_send_inactivity_notifications_lists_inactive_teachers
    (s : state (list db_write)) :
  let threshold := db_now db - timedelta_days 7 in
  let inactive := filter (no_transaction_since db threshold) (db_teachers db) in
  send_inactivity_notifications (memory_env db) tt s
  = (Ok {[ "inactive_teacher_count" := VInt (Z.of_nat (length inactive));
           "teachers" := VList (inactive_entry db <$> inactive) ]}, s)
  ∧ entry_id <$> (inactive_entry db <$> inactive) = (λ t, Some (id t)) <$> inactive
  ∧ (∀ t, entry_last_activity (inactive_entry db t) = Some VNone
          ↔ ∀ r, r ∈ db_transactions db → row_teacher_id r ≠ id t).
Proof.
  intros threshold inactive. split; [|split].
  - destruct s as [w lg].
    unfold send_inactivity_notifications, send_inactivity_notifications_imports,
      send_inactivity_notifications_try, try_except_Exception.
    unfold bind at 1. unfold call_world at 1. simpl.
    unfold bind at 1. unfold call_world at 1. simpl.
    unfold bind at 1. unfold call_world at 1. simpl.
    fold threshold.
    unfold bind at 1. rewrite for_collect_inactive. simpl. unfold ret.
    fold inactive. by rewrite length_fmap.
  - rewrite <- list_fmap_compose. apply list_fmap_ext. by intros _ t _.
  - intros t. unfold inactive_entry, entry_last_activity.
    rewrite <- last_created_at_None.
    assert (∀ d : gmap string pyval, ∀ v, d = {[ "id" := VInt (id t);
             "name" := VStr (first_name t +:+ " " +:+ last_name t);
             "email" := VStr (email t); "last_activity" := v ]} →
             d !! "last_activity" = Some v) as Hlook by (by intros d v ->).
    rewrite (Hlook _ _ eq_refl).
    destruct (last_created_at (id t) (db_transactions db)); split; congruence.
Qed.

End MemoryQueries.

Section InactivityAnyEnv.

Import Celery.

Context {W : Type} (E : Env W).

(** An entry the loop appends for a teacher carries that teacher's [id]. *)
Lemma inactive_teacher_entry_id (threshold : Z) (teacher : User) (s s' : state W)
    (v : pyval) :
  inactive_teacher_entry E threshold teacher s = (Ok (Some v), s') →
  entry_id v = Some (id teacher).
Proof.
  unfold inactive_teacher_entry. intros Hrun.
  apply bind_Ok_inv in Hrun as (last & s1 & _ & Hrun).
  assert (∀ a : pyval,
            entry_id (VDict {[ "id" := VInt (id teacher);
                               "name" := VStr (first_name teacher +:+ " " +:+ last_name teacher);
                               "email" := VStr (email teacher);
                               "last_activity" := a ]}) = Some (id teacher)) as Hid
    by (intros a; reflexivity).
  destruct last as [t|].
  - case_bool_decide; [|discriminate Hrun].
    injection Hrun as <- _. apply Hid.
  - injection Hrun as <- _. apply Hid.
Qed.

(** The loop appends entries of teachers of its list, in the list's order. *)
Lemma for_collect_listed (threshold : Z) (teachers : list User) :
  ∀ acc s l s',
    for_collect teachers (inactive_teacher_entry E threshold) acc s = (Ok l, s') →
    ∃ new listed,
      l = acc ++ new
      ∧ listed `sublist_of` teachers
      ∧ entry_id <$> new = (λ t, Some (id t)) <$> listed.
Proof.
  induction teachers as [|t ts IH]; intros acc s l s' Hrun; simpl in Hrun.
  - injection Hrun as <- _. exists [], []. by rewrite app_nil_r.
  - apply bind_Ok_inv in Hrun as (o & s1 & Hentry & Hrun).
    apply IH in Hrun as (new & listed & -> & Hsub & Hids).
    destruct o as [v|].
    + exists (v :: new), (t :: listed). split; [by rewrite <- app_assoc|].
      split; [by apply sublist_skip|].
      rewrite !fmap_cons, Hids. f_equal.
      by apply (inactive_teacher_entry_id threshold t s s1).
    + exists new, listed. split; [reflexivity|]. split; [by apply sublist_cons | exact Hids].
Qed.

(** X16: whatever the database does, when the [try] block of
    [send_inactivity_notifications] returns a record, the entries of its
    list are entries of teachers that the teacher query of this very run
    returned, each at most once per occurrence and in the order of the
    query's result; so the count, which is the length of the list, never
    exceeds the number of teachers the query returned. *)
Theorem X16_listed_teachers_come_from_the_query (s s' : state W)
    (record : gmap string pyval) :
  send_inactivity_notifications_try E s = (Ok record, s') →
  ∃ now s1 teachers s2 entries listed,
    call_world (datetime_utcnow E) s = (Ok now, s1)
    ∧ call_world (User_query_filter_by_role_all E "teacher") s1 = (Ok teachers, s2)
    ∧ for_collect teachers (inactive_teacher_entry E (now - timedelta_days 7)) [] s2
      = (Ok entries, s')
    ∧ record = {[ "inactive_teacher_count" := VInt (Z.of_nat (length entries));
                  "teachers" := VList entries ]}
    ∧ listed `sublist_of` teachers
    ∧ entry_id <$> entries = (λ t, Some (id t)) <$> listed
    ∧ (length entries ≤ length teachers)%nat.
Proof.
  intros Hrun. unfold send_inactivity_notifications_try in Hrun.
  apply bind_Ok_inv in Hrun as (now & s1 & Hnow & Hrun).
  apply bind_Ok_inv in Hrun as (teachers & s2 & Hquery & Hrun).
  apply bind_Ok_inv in Hrun as (entries & s3 & Hloop & Hrun).
  injection Hrun as <- <-.
  destruct (for_collect_listed _ teachers [] s2 entries s3 Hloop)
    as (new & listed & Hnew & Hsub & Hids).
  simpl in Hnew. subst new.
  exists now, s1, teachers, s2, entries, listed.
  repeat split; try done.
  apply sublist_length in Hsub.
  apply (f_equal length) in Hids. rewrite !length_fmap in Hids. lia.
Qed.

End InactivityAnyEnv.

(** ** Concrete runs for the further properties *)

(** Case analysis on membership in an explicit list. *)
Ltac in_list H :=
  repeat (apply elem_of_cons in H as [->|H]); [..| by apply elem_of_nil in H].

Section FurtherRateLimitRuns.

Import RateLimit.

(** X3 at limit 1 after three calls. *)
Lemma X3_witness :
  Z.of_nat (length (window "10.0.0.1"
                      (snd (run 1 10 None view [at_time 100; at_time 105; at_time 110] ∅))))
  ≤ 1.
Proof.
  apply (X3_window_never_longer_than_limit 1 10 None view
           [at_time 100; at_time 105; at_time 110] "10.0.0.1").
  lia.
Defined.

(** X5 at a window of two timestamps, checked at 110 with [per = 10]. *)
Lemma X5_witness :
  Forall (λ t, 110 - t < 10)
    (window (request_key None client)
       (snd (wrapped 5 10 None view client 110 tt {[ "10.0.0.1" := [100; 105] ]}))).
Proof.
  apply (X5_window_fresh_after_check 5 10 None view client 110 tt
           {[ "10.0.0.1" := [100; 105] ]}).
  lia.
Defined.

(** X6 at limit 2: the window [100; 101] has expired at 111 and a burst of
    three calls follows. *)
Lemma X6_witness :
  ev_status <$> fst (run 2 10 None view (calls_at client tt [111; 115; 120])
                       {[ "10.0.0.1" := [100; 101] ]})
  = [Some Allowed; Some Allowed; Some Rejected].
Proof.
  apply (X6_expired_window_admits_limit_calls 2 10 None view client tt 111
           [111; 115; 120] {[ "10.0.0.1" := [100; 101] ]}).
  - intros x Hx.
    assert (window (request_key None client)
              ({[ "10.0.0.1" := [100; 101] ]} : gmap string (list Z)) = [100; 101])
      as Hw by reflexivity.
    rewrite Hw in Hx. in_list Hx; lia.
  - intros t Ht. in_list Ht; lia.
Defined.

(** X7: a call through a view limited to 100 per minute, then the same
    client through a view limited to 1 per minute, thirty ticks later. *)
Lemma X7_witness :
  status_of (fst (wrapped 1 60 None view client 130 tt
                    (snd (wrapped 100 60 None view client 100 tt ∅))))
  = Some Rejected.
Proof.
  apply (X7_views_share_one_window 100 60 1 60 None view view client 100 130 tt tt ∅).
  - reflexivity.
  - lia.
  - lia.
Defined.

(** X8 with [per = 0] and limit 1. *)
Lemma X8_witness :
  Forall (λ e, ev_status e = Some Allowed)
    (fst (run 1 0 None view [at_time 100; at_time 100; at_time 101] ∅)).
Proof.
  apply (X8_nonpositive_window_never_rejects 1 0 None view
           [at_time 100; at_time 100; at_time 101]).
  - lia.
  - lia.
  - simpl. repeat first [lia | constructor].
Defined.

(** X9 at two IPv4 addresses with the same scope. *)
Lemma X9_witness :
  (request_key (Some (λ _, "login")) {| remote_addr := "10.0.0.1" |}
   = request_key (Some (λ _, "login")) {| remote_addr := "10.0.0.2" |} →
   "10.0.0.1" = "10.0.0.2" ∧ "login" = "login")
  ∧ request_key None {| remote_addr := "10.0.0.1" |}
    ≠ request_key (Some (λ _, "login")) {| remote_addr := "10.0.0.2" |}
  ∧ (request_key None {| remote_addr := "10.0.0.1" |}
     = request_key None {| remote_addr := "10.0.0.2" |} →
     "10.0.0.1" = "10.0.0.2").
Proof.
  apply (X9_keys_of_colon_free_addresses_are_distinct (λ _, "login") (λ _, "login")
           {| remote_addr := "10.0.0.1" |} {| remote_addr := "10.0.0.2" |});
    simpl; repeat split; discriminate.
Defined.

(** With a [":"] in the address the key is ambiguous: an unscoped IPv6
    client and a scoped client share a window. *)
Example colon_in_address_collides :
  request_key None {| remote_addr := "fe80::1:login" |}
  = request_key (Some (λ _, "login")) {| remote_addr := "fe80::1" |}.
Proof. reflexivity. Qed.

End FurtherRateLimitRuns.

Section FurtherTaskRuns.

Import Celery.

(** X12 at the demo database. *)
Lemma X12_witness :
  update_point_caches (memory_env (demo_db (λ _, None))) false tt memory_start
  = (Ok {[ "success" := VBool true; "timestamp" := VStr "2024-01-02T00:05:00" ]},
     {| world := [SetTotalPoints 1 15; SetTotalPoints 3 7;
                  SetPointsGiven 2 15; SetPointsGiven 4 7; Commit];
        log := [] |}).
Proof.
  apply (X12_update_point_caches_writes_sums_then_commits (demo_db (λ _, None))
           false memory_start); intros u _; reflexivity.
Defined.

(** X13 at the demo database with the sum query of user 3 down: the first
    student has been written, nothing is committed. *)
Lemma X13_witness :
  let db := demo_db (λ i, if bool_decide (i = 3) then Some (RuntimeError "db down") else None) in
  let r := update_point_caches (memory_env db) false tt memory_start in
  ∃ ws, world (snd r) = world memory_start ++ ws
        ∧ ws `prefix_of` (total_points_writes db (db_students db)
                          ++ points_given_writes db (db_teachers db))
        ∧ (Commit ∉ ws)
        ∧ match fst r with
          | Ok record => ∃ e, record = failure_record e ∧ exn_isinstance_Exception e = true
          | Raise e => exn_isinstance_Exception e = false
          end.
Proof.
  apply (X13_update_point_caches_failure_never_commits
           (demo_db (λ i, if bool_decide (i = 3) then Some (RuntimeError "db down") else None))
           false memory_start).
  exists {| id := 3; first_name := "Alan"; last_name := "Turing"; email := "alan@school" |}.
  split.
  - left. simpl. apply list_elem_of_further, list_elem_of_here.
  - exists (RuntimeError "db down"). reflexivity.
Defined.

Example failed_run_leaves_one_write :
  world (snd (update_point_caches
                (memory_env (demo_db (λ i, if bool_decide (i = 3)
                                            then Some (RuntimeError "db down") else None)))
                false tt memory_start))
  = [SetTotalPoints 1 15].
Proof. vm_compute. reflexivity. Qed.

(** The daily statistics of the demo database: the transaction exactly 24
    hours old is counted, the one eight days old is not. *)
Example daily_statistics_of_demo_db :
  fst (generate_daily_statistics (memory_env (demo_db (λ _, None))) tt memory_start)
  = Ok {[ "timestamp" := VStr "2024-01-02T00:05:00";
          "date" := VStr "2024-01-01";
          "transactions_count" := VInt 2;
          "total_points" := VInt 15;
          "active_teachers" := VInt 1;
          "active_students" := VInt 1 ]}.
Proof. vm_compute. reflexivity. Qed.

(** X16 at the small world of the earlier runs. *)
Lemma X16_witness :
  let E := demo_env None None in
  let record : gmap string pyval :=
    {[ "inactive_teacher_count" := VInt 1;
       "teachers" :=
         VList [VDict {[ "id" := VInt 2; "name" := VStr "Grace Hopper";
                         "email" := VStr "grace@school"; "last_activity" := VNone ]}] ]} in
  ∃ now s1 teachers s2 entries listed,
    call_world (datetime_utcnow E) demo_state = (Ok now, s1)
    ∧ call_world (User_query_filter_by_role_all E "teacher") s1 = (Ok teachers, s2)
    ∧ for_collect teachers (inactive_teacher_entry E (now - timedelta_days 7)) [] s2
      = (Ok entries, demo_state)
    ∧ record = {[ "inactive_teacher_count" := VInt (Z.of_nat (length entries));
                  "teachers" := VList entries ]}
    ∧ listed `sublist_of` teachers
    ∧ entry_id <$> entries = (λ t, Some (id t)) <$> listed
    ∧ (length entries ≤ length teachers)%nat.
Proof.
  apply (X16_listed_teachers_come_from_the_query (demo_env None None) demo_state demo_state).
  vm_compute. reflexivity.
Defined.

End FurtherTaskRuns.
